(** * Flomo Garden: the React front end and the store contract it relies on

    A shallow embedding of the TypeScript components [ExportPreview],
    [SyncModal] and [App] (all three are concatenated in
    [src/src/UpdateDialog.tsx]).  The Tauri commands they invoke
    ([get_memos_from_db], [search_memos_from_db], [sync_all_memos], the
    [format_memos_*] family) live in the Rust crate, which is not part of the
    sources at hand; where a property depends on them they are modelled from
    the specification, in module [Backend], and marked as such. *)

From Stdlib Require Import ZArith Bool List Ascii String Lia Permutation Sorted.
From Stdlib Require Import SpecFloat.
From stdpp Require Import base option list gmap strings pretty.

Import ListNotations.
Local Open Scope Z_scope.

(** ** JavaScript primitives used by the components *)

Module Js.

(** [a < b] and [a > b] on strings: lexicographic on code units.  The
    timestamps compared by the components are ASCII. *)
Definition lt (a b : string) : bool := String.ltb a b.
Definition gt (a b : string) : bool := String.ltb b a.

(** [!s] for a string: only the empty string is falsy. *)
Definition falsy (s : string) : bool :=
  match s with EmptyString => true | String _ _ => false end.

(** [haystack.includes(needle)]. *)
Fixpoint includes (haystack needle : string) : bool :=
  String.prefix needle haystack ||
  match haystack with
  | EmptyString => false
  | String _ rest => includes rest needle
  end.

(** The integral results of [parseInt] and of [.length]: an integer, or
    [NaN] when [parseInt] finds no digits. *)
Inductive int : Type :=
| Int (z : Z)
| NaN.

(** [Math.min(a, b)]. *)
Definition Math_min (a b : int) : int :=
  match a, b with
  | Int x, Int y => Int (Z.min x y)
  | _, _ => NaN
  end.

(** [arr.slice(0, end)]: [ToIntegerOrInfinity] sends [NaN] to 0, a negative
    [end] counts from the back, and the end is clamped to the length. *)
Definition slice_end (len : Z) (end_ : int) : Z :=
  match end_ with
  | NaN => 0
  | Int k => if k <? 0 then Z.max (len + k) 0 else Z.min k len
  end.

Definition slice0 {A} (arr : list A) (end_ : int) : list A :=
  take (Z.to_nat (slice_end (Z.of_nat (length arr)) end_)) arr.

(** [arr.pop()] as used for its effect on [arr]. *)
Definition pop {A} (arr : list A) : list A := removelast arr.

(** [[...arr].sort(cmp)]: the sort is stable (ECMAScript 2019), so for a
    consistent comparator the result is the one below: each element is
    placed before the first element it does not compare greater than, and
    the elements are inserted from the back of the array to the front. *)
Fixpoint sort_insert {A} (cmp : A -> A -> Z) (x : A) (l : list A) : list A :=
  match l with
  | [] => [x]
  | y :: l' => if cmp x y <=? 0 then x :: l else y :: sort_insert cmp x l'
  end.

Fixpoint sort {A} (cmp : A -> A -> Z) (l : list A) : list A :=
  match l with
  | [] => []
  | x :: l' => sort_insert cmp x (sort cmp l')
  end.

End Js.

(** ** The data shared by the components *)

Record Memo : Type := mkMemo {
  slug : string;
  content : string;
  created_at : string;
  updated_at : string;
  tags : list string;
  url : option string
}.

Inductive OrderBy : Type := by_created_at | by_updated_at.
Inductive OrderDir : Type := asc | desc.

(** [a[orderBy]] *)
Definition order_field (orderBy : OrderBy) (m : Memo) : string :=
  match orderBy with
  | by_created_at => created_at m
  | by_updated_at => updated_at m
  end.

(** ** ExportPreview *)

Module ExportPreview.

Inductive ExportFormat : Type := json | markdown | table.
Inductive UrlMode : Type := url_full | url_id | url_none.

Inductive DateFormatOption : Type :=
| fmt_ymd_hm        (* "yyyy-MM-dd HH:mm" *)
| fmt_ymd           (* "yyyy-MM-dd" *)
| fmt_mdy_hm        (* "MM/dd/yyyy HH:mm" *)
| fmt_dmy_hm        (* "dd/MM/yyyy HH:mm" *)
| fmt_cjk_hm        (* the year-month-day form with CJK separators *)
| fmt_mon_d_y       (* "MMM dd, yyyy" *)
| fmt_none          (* "none" *)
| fmt_custom.       (* "custom" *)

(** The option's own string value, which is what the [select] stores. *)
Definition option_value (o : DateFormatOption) : string :=
  match o with
  | fmt_ymd_hm => "yyyy-MM-dd HH:mm"
  | fmt_ymd => "yyyy-MM-dd"
  | fmt_mdy_hm => "MM/dd/yyyy HH:mm"
  | fmt_dmy_hm => "dd/MM/yyyy HH:mm"
  | fmt_cjk_hm => "yyyy年MM月dd日 HH:mm"
  | fmt_mon_d_y => "MMM dd, yyyy"
  | fmt_none => "none"
  | fmt_custom => "custom"
  end.

(** [useState<number | "">]: a number, or the empty string once the field
    has been cleared. *)
Inductive LimitField : Type :=
| limit_number (n : Js.int)
| limit_cleared.

(** The props and the state of the component. *)
Record State : Type := mkState {
  memos : list Memo;
  selectedFormat : ExportFormat;
  dateFormat : DateFormatOption;
  customDateFormat : string;
  minimalMode : bool;
  compactJson : bool;
  urlMode : UrlMode;
  orderBy : OrderBy;
  orderDir : OrderDir;
  limit : LimitField;
  preview : string;
  isExporting : bool;
  error : option string
}.

(** The initial state for the given props. *)
Definition init (ms : list Memo) : State :=
  {| memos := ms;
     selectedFormat := markdown;
     dateFormat := fmt_ymd_hm;
     customDateFormat := "yyyy-MM-dd HH:mm:ss";
     minimalMode := false;
     compactJson := false;
     urlMode := url_full;
     orderBy := by_created_at;
     orderDir := desc;
     limit := limit_number (Js.Int (Z.of_nat (length ms)));
     preview := "";
     isExporting := false;
     error := None |}.

(** [onChange] of the limit input:
    [e.target.value ? parseInt(e.target.value) : ""]; the argument is what
    [parseInt] returns, when the field is not empty. *)
Definition setLimit_onChange (parsed : option Js.int) : LimitField :=
  match parsed with
  | Some n => limit_number n
  | None => limit_cleared
  end.

(** The comparator passed to [sort]. *)
Definition compareMemos (ob : OrderBy) (od : OrderDir) (a b : Memo) : Z :=
  let aValue := order_field ob a in
  let bValue := order_field ob b in
  match od with
  | asc => if Js.lt aValue bValue then -1 else if Js.gt aValue bValue then 1 else 0
  | desc => if Js.gt aValue bValue then -1 else if Js.lt aValue bValue then 1 else 0
  end.

Definition sortMemos (ob : OrderBy) (od : OrderDir) (ms : list Memo) : list Memo :=
  Js.sort (compareMemos ob od) ms.

Definition getProcessedMemos (st : State) : list Memo :=
  let sorted := sortMemos (orderBy st) (orderDir st) (memos st) in
  let len := Js.Int (Z.of_nat (length sorted)) in
  let limitNum :=
    match limit st with
    | limit_number n => n
    | limit_cleared => len
    end in
  Js.slice0 sorted (Js.Math_min limitNum len).

Definition getDateFormatString (st : State) : string :=
  match dateFormat st with
  | fmt_none => ""
  | fmt_custom => customDateFormat st
  | o => option_value o
  end.

(** The command [generatePreview] invokes, with its [args]. *)
Inductive FormatRequest : Type :=
| format_memos_json_with_options
    (memos : list Memo) (compact : bool) (dateFormat : string)
| format_memos_markdown_with_options
    (memos : list Memo) (urlMode : UrlMode) (dateFormat : string) (minimal : bool)
| format_memos_table_with_options
    (memos : list Memo) (dateFormat : string).

Definition previewRequest (st : State) : FormatRequest :=
  let processedMemos := getProcessedMemos st in
  let formatString := getDateFormatString st in
  match selectedFormat st with
  | json => format_memos_json_with_options processedMemos (compactJson st) formatString
  | markdown =>
      format_memos_markdown_with_options processedMemos (urlMode st) formatString
        (minimalMode st)
  | table => format_memos_table_with_options processedMemos formatString
  end.

(** Modelled from the spec: the Rust commands [format_memos_*_with_options]
    are not among the sources.  Section 4.5 gives their contract: the text
    is a function of the memo slice and the configuration, with no network
    or storage access; a formatting error is propagated to the caller,
    which is [None] here. *)
Definition Formatter : Type := FormatRequest -> option string.

(** [generatePreview]: the text handed to [setPreview]. *)
Definition generatePreview (fmt : Formatter) (st : State) : string :=
  match fmt (previewRequest st) with
  | Some content => content
  | None => "Failed to generate preview"
  end.

Definition runPreview (fmt : Formatter) (st : State) : State :=
  {| memos := memos st;
     selectedFormat := selectedFormat st;
     dateFormat := dateFormat st;
     customDateFormat := customDateFormat st;
     minimalMode := minimalMode st;
     compactJson := compactJson st;
     urlMode := urlMode st;
     orderBy := orderBy st;
     orderDir := orderDir st;
     limit := limit st;
     preview := generatePreview fmt st;
     isExporting := isExporting st;
     error := error st |}.

End ExportPreview.

(** ** IEEE-754 binary64, the arithmetic of JavaScript numbers *)

Module Number.

Definition prec : Z := 53.
Definition emax : Z := 1024.

(** A number literal or an integer received from the back end. *)
Definition of_Z (z : Z) : spec_float := binary_normalize prec emax z 0 false.

Definition div (x y : spec_float) : spec_float := SFdiv prec emax x y.
Definition mul (x y : spec_float) : spec_float := SFmul prec emax x y.

(** [x === 0] *)
Definition is_zero (x : spec_float) : bool :=
  match x with S754_zero _ => true | _ => false end.

(** The integer [floor (m * 2^e + 1/2)], for a signed mantissa [m]. *)
Definition round_half_up (m e : Z) : Z :=
  if 0 <=? e then m * 2 ^ e else (2 * m + 2 ^ (- e)) / 2 ^ (1 - e).

(** [Math.round(x)]: the nearest integer, a tie going towards +infinity;
    NaN and the infinities are returned as they are, and a result of zero
    keeps the sign of [x]. *)
Definition Math_round (x : spec_float) : spec_float :=
  match x with
  | S754_finite s m e =>
      binary_normalize prec emax (round_half_up (cond_Zopp s (Zpos m)) e) 0 s
  | _ => x
  end.

End Number.

(** ** SyncModal *)

Module SyncModal.

Record SyncProgress : Type := mkProgress {
  total : Z;
  current : Z;
  status : string;
  message : string
}.

Record SyncStatus : Type := mkStatus {
  id : Z;
  last_sync_at : option string;
  total_memos : Z;
  sync_status : string;       (* the field [status] of [SyncStatus] *)
  error_message : option string
}.

(** The four [useState] cells of the component. *)
Record State : Type := mkState {
  progress : option SyncProgress;
  syncStatus : option SyncStatus;
  issyncing : bool;
  isCancelling : bool
}.

(** The Tauri commands the component invokes. *)
Inductive Invoke : Type :=
| sync_all_memos (token : string)
| cancel_sync
| get_sync_status
| clear_local_data.

(** How an awaited [invoke] settles. *)
Inductive Settled : Type :=
| resolved
| rejected (err : string).

Definition setProgress (p : option SyncProgress) (st : State) : State :=
  {| progress := p; syncStatus := syncStatus st;
     issyncing := issyncing st; isCancelling := isCancelling st |}.
Definition setSyncStatus (s : option SyncStatus) (st : State) : State :=
  {| progress := progress st; syncStatus := s;
     issyncing := issyncing st; isCancelling := isCancelling st |}.
Definition setIsSyncing (b : bool) (st : State) : State :=
  {| progress := progress st; syncStatus := syncStatus st;
     issyncing := b; isCancelling := isCancelling st |}.
Definition setIsCancelling (b : bool) (st : State) : State :=
  {| progress := progress st; syncStatus := syncStatus st;
     issyncing := issyncing st; isCancelling := b |}.

(** [x || 0] on an integer. *)
Definition or_zero (x : Z) : Z := if x =? 0 then 0 else x.

(** [startSync] up to its [await]: the guard, the two setters, and the
    command that is invoked. *)
Definition startSync_begin (token : string) (st : State) : State * list Invoke :=
  if Js.falsy token || issyncing st then (st, [])
  else
    (setProgress
       (Some {| total := 0; current := 0; status := "starting";
                message := "Starting synchronization..." |})
       (setIsSyncing true st),
     [sync_all_memos token]).

(** The [catch] block of [startSync].  [seen] is the [progress] of the
    render in which [startSync] was created, which is what the closure
    reads. *)
Definition startSync_catch (seen : option SyncProgress) (err : string)
    (st : State) : State * list Invoke :=
  let failure :=
    if Js.includes err "cancelled" then
      {| total := or_zero (from_option total 0 seen);
         current := or_zero (from_option current 0 seen);
         status := "cancelled";
         message := "Sync cancelled by user" |}
    else
      {| total := 0; current := 0; status := "failed";
         message := "Sync failed: " +:+ err |} in
  (setIsCancelling false (setIsSyncing false (setProgress (Some failure) st)),
   [get_sync_status]).

(** [startSync] run to its end, for a given settlement of the command, when
    nothing else touches the state meanwhile. *)
Definition startSync (token : string) (outcome : Settled) (st : State)
    : State * list Invoke :=
  let '(st1, calls) := startSync_begin token st in
  match calls, outcome with
  | [], _ => (st1, [])
  | _, resolved => (st1, calls)
  | _, rejected err =>
      let '(st2, more) := startSync_catch (progress st) err st1 in
      (st2, calls ++ more)
  end.

(** [cancelSync], likewise. *)
Definition cancelSync_begin (st : State) : State * list Invoke :=
  if negb (issyncing st) || isCancelling st then (st, [])
  else (setIsCancelling true st, [cancel_sync]).

Definition cancelSync (outcome : Settled) (st : State) : State * list Invoke :=
  let '(st1, calls) := cancelSync_begin st in
  match calls, outcome with
  | [], _ => (st1, [])
  | _, resolved => (st1, calls)
  | _, rejected _ => (setIsCancelling false st1, calls)
  end.

(** The listener on the ["sync-progress"] channel; the boolean tells
    whether [onSyncComplete] is called. *)
Definition onSyncProgress (payload : SyncProgress) (st : State)
    : State * list Invoke * bool :=
  let st1 := setProgress (Some payload) st in
  if String.eqb (status payload) "completed" || String.eqb (status payload) "cancelled"
  then (setIsCancelling false (setIsSyncing false st1), [get_sync_status],
        String.eqb (status payload) "completed")
  else (st1, [], false).

(** The commands reach the back end in the order they were invoked;
    [handle] is the back end's reaction to one command. *)
Definition deliver {B : Type} (handle : Invoke -> B -> B)
    (calls : list Invoke) (backend : B) : B :=
  fold_left (fun b c => handle c b) calls backend.

Definition getProgressPercentage (progress : option SyncProgress) : spec_float :=
  match progress with
  | None => Number.of_Z 0
  | Some p =>
      if Number.is_zero (Number.of_Z (total p)) then Number.of_Z 0
      else
        Number.Math_round
          (Number.mul (Number.div (Number.of_Z (current p)) (Number.of_Z (total p)))
             (Number.of_Z 100))
  end.

End SyncModal.

(** ** The read commands of the back end, as the front end invokes them *)

Record Commands : Type := mkCommands {
  (* invoke<Memo[]>("get_memos_from_db", { orderBy, orderDir, offset, limit }) *)
  get_memos_from_db : OrderBy -> OrderDir -> nat -> nat -> list Memo;
  (* invoke<Memo[]>("search_memos_from_db", { query, orderBy, orderDir, offset, limit }) *)
  search_memos_from_db : string -> OrderBy -> OrderDir -> nat -> nat -> list Memo;
  (* invoke<any>("get_sync_status"), of which [App] reads [total_memos] *)
  status_total_memos : Z
}.

(** ** The local store behind the Tauri commands *)

Module Backend.

(** Modelled from the spec: the Rust module [db.rs] is not among the
    sources.  Section 3 makes the slug the unique identity of a memo in the
    store, so the memo table is a finite map from slugs to rows. *)
Definition well_formed (store : gmap string Memo) : Prop :=
  forall k m, store !! k = Some m -> slug m = k.

(** Modelled from the spec: the rows of the memo table, in no order that a
    caller may rely on. *)
Definition rows (store : gmap string Memo) : list Memo :=
  (map_to_list store).*2.

(** Modelled from the spec: [total_memos] always equals the row count of
    the store (section 3, SyncMetadata). *)
Definition total_memos (store : gmap string Memo) : Z := Z.of_nat (size store).

(** Modelled from the spec: the order of [get_page] (section 4.2): by the
    given field in the given direction, ties broken by slug. *)
Definition compare_rows (ob : OrderBy) (od : OrderDir) (a b : Memo) : Z :=
  let by_field :=
    match od with
    | asc => String.compare (order_field ob a) (order_field ob b)
    | desc => String.compare (order_field ob b) (order_field ob a)
    end in
  match by_field with
  | Lt => -1
  | Gt => 1
  | Eq =>
      match String.compare (slug a) (slug b) with
      | Lt => -1
      | Gt => 1
      | Eq => 0
      end
  end.

(** Modelled from the spec: all rows in the order of [get_page].  The order
    is total on rows with distinct slugs, so it does not matter which
    sorting procedure produces it; the stable insertion of [Js.sort] is
    used. *)
Definition ordered_rows (ob : OrderBy) (od : OrderDir)
    (store : gmap string Memo) : list Memo :=
  Js.sort (compare_rows ob od) (rows store).

(** Modelled from the spec: [get_page(order_by, dir, offset, limit)] of
    section 4.2, as the command [get_memos_from_db] returns it to the
    front end (the list only; [has_more] is derived by the caller). *)
Definition get_page (store : gmap string Memo)
    (ob : OrderBy) (od : OrderDir) (offset limit : nat) : list Memo :=
  take limit (drop offset (ordered_rows ob od store)).

Definition to_lower (c : ascii) : ascii :=
  let n := nat_of_ascii c in
  if (65 <=? n)%nat && (n <=? 90)%nat then ascii_of_nat (n + 32) else c.

Fixpoint lowercase (s : string) : string :=
  match s with
  | EmptyString => EmptyString
  | String c rest => String (to_lower c) (lowercase rest)
  end.

(** Modelled from the spec: the match of [search_page] (section 4.2):
    case-insensitive substring match against content and tag names. *)
Definition matches (query : string) (m : Memo) : bool :=
  let q := lowercase query in
  Js.includes (lowercase (content m)) q ||
  existsb (fun t => Js.includes (lowercase t) q) (tags m).

(** Modelled from the spec: [search_page], behind [search_memos_from_db]:
    the same page shape as [get_page], over the matching rows. *)
Definition search_page (store : gmap string Memo) (query : string)
    (ob : OrderBy) (od : OrderDir) (offset limit : nat) : list Memo :=
  take limit (drop offset (List.filter (matches query) (ordered_rows ob od store))).

(** Modelled from the spec: the commands served from a given store, which
    no sync is mutating meanwhile. *)
Definition commands (store : gmap string Memo) : Commands :=
  {| get_memos_from_db := get_page store;
     search_memos_from_db := search_page store;
     status_total_memos := total_memos store |}.

(** Modelled from the spec: a stored row is superseded by nothing older:
    [incoming] replaces [stored] unless [stored] has the greater
    [updated_at] (section 4.2, "overwrites the prior row only if not
    already superseded"; section 3, last-write-wins by [updated_at]). *)
Definition superseded (stored incoming : Memo) : bool :=
  Js.lt (updated_at incoming) (updated_at stored).

(** Modelled from the spec: insert-or-overwrite by slug (glossary). *)
Definition upsert (store : gmap string Memo) (m : Memo) : gmap string Memo :=
  match store !! slug m with
  | Some stored => if superseded stored m then store else <[slug m := m]> store
  | None => <[slug m := m]> store
  end.

(** Modelled from the spec: [upsert_page] applies one fetched page, row by
    row in the order the remote service returned them. *)
Definition upsert_page (store : gmap string Memo) (page : list Memo)
    : gmap string Memo :=
  fold_left upsert page store.

(** Modelled from the spec: the store after a sync run that fetched
    [pages], applied strictly in fetch order (section 5). *)
Definition sync_run (store : gmap string Memo) (pages : list (list Memo))
    : gmap string Memo :=
  fold_left upsert_page pages store.

End Backend.

(** ** App: the two infinite queries *)

Module App.

(** What a [queryFn] returns.  The page for an empty store has no
    [offset] field. *)
Record Page : Type := mkPage {
  memos : list Memo;
  has_more : bool;
  offset : option nat
}.

Inductive QueryResult : Type :=
| threw (msg : string)
| returned (page : Page).

(** [checkLocalData]: [setHasLocalData(status.total_memos > 0)]. *)
Definition checkLocalData (db : Commands) : bool :=
  0 <? status_total_memos db.

(** The tail shared by both query functions, from [const hasMore] on;
    [fetched] is what the command returned for [limit + 1]. *)
Definition toPage (limit : nat) (fetched : list Memo) (pageParam : nat) : Page :=
  let hasMore := (limit <? length fetched)%nat in
  {| memos := if hasMore then Js.pop fetched else fetched;
     has_more := hasMore;
     offset := Some pageParam |}.

Definition memos_queryFn (db : Commands) (token : string)
    (hasLocalData : bool) (ob : OrderBy) (od : OrderDir) (pageParam : nat)
    : QueryResult :=
  if Js.falsy token then threw "No token configured"
  else if negb hasLocalData then
    returned {| memos := []; has_more := false; offset := None |}
  else
    let limit := 50%nat in
    returned
      (toPage limit
         (get_memos_from_db db ob od pageParam (limit + 1)) pageParam).

Definition search_queryFn (db : Commands) (token : string)
    (hasLocalData : bool) (searchQuery : string)
    (ob : OrderBy) (od : OrderDir) (pageParam : nat) : QueryResult :=
  if Js.falsy token then threw "No token configured"
  else if negb hasLocalData then
    returned {| memos := []; has_more := false; offset := None |}
  else
    let limit := 50%nat in
    returned
      (toPage limit
         (search_memos_from_db db searchQuery ob od pageParam (limit + 1))
         pageParam).

(** [getNextPageParam]; [None] is [undefined].  Every page with
    [has_more] set carries its offset. *)
Definition getNextPageParam (lastPage : Page) : option nat :=
  if negb (has_more lastPage) then None
  else
    match offset lastPage with
    | Some o => Some (o + 50)%nat
    | None => None
    end.

(** The infinite query driven to its end: the first page is fetched with
    [pageParam], and the next one as long as [getNextPageParam] gives an
    offset.  [fuel] bounds the number of fetches; [None] when it runs out
    or when the query function throws. *)
Fixpoint fetchAllPages (queryFn : nat -> QueryResult) (fuel : nat)
    (pageParam : nat) : option (list Page) :=
  match fuel with
  | O => None
  | S fuel' =>
      match queryFn pageParam with
      | threw _ => None
      | returned page =>
          match getNextPageParam page with
          | None => Some [page]
          | Some next =>
              match fetchAllPages queryFn fuel' next with
              | Some pages => Some (page :: pages)
              | None => None
              end
          end
      end
  end.

(** [getAllMemos]: [pages.flatMap((page) => page.memos)]. *)
Definition getAllMemos (pages : list Page) : list Memo :=
  flat_map memos pages.

End App.

(** ** Concrete inputs used in the examples below *)

Module Samples.

Definition memo (s body created updated : string) : Memo :=
  {| slug := s; content := body; created_at := created; updated_at := updated;
     tags := []; url := None |}.

(** Two memos created in the same second. *)
Definition tie_a : Memo := memo "a" "first" "2024-01-15 14:30:00" "2024-01-15 14:30:00".
Definition tie_b : Memo := memo "b" "second" "2024-01-15 14:30:00" "2024-01-16 09:00:00".
Definition later_c : Memo := memo "c" "third" "2024-02-01 08:00:00" "2024-02-01 08:00:00".

(** The note [a] after it was edited on the remote side. *)
Definition edited_a : Memo := memo "a" "edited" "2024-01-15 14:30:00" "2024-03-01 10:00:00".


Definition digit (d : nat) : ascii := ascii_of_nat (48 + d).

(** Memo number [i], with slug ["m000"], ["m001"], ... and one of seven
    creation days. *)
Definition numbered (i : nat) : Memo :=
  let day := "2024-01-0" +:+ String (digit (i mod 7 + 1)) EmptyString in
  memo (String "m" (String (digit (i / 100)) (String (digit (i / 10 mod 10))
          (String (digit (i mod 10)) EmptyString))))
       "note" day day.

(** Scenario A: the remote holds 120 memos, served as three pages. *)
Definition remote_pages : list (list Memo) :=
  [map numbered (seq 0 50); map numbered (seq 50 50); map numbered (seq 100 20)].

Definition store120 : gmap string Memo := Backend.sync_run ∅ remote_pages.

End Samples.

(** ** The sync orchestrator *)

Module Orchestrator.

(** Modelled from the spec: the Rust sync engine is not among the sources.
    The states of the machine of section 4.3:
    Idle, Starting, Fetching(page n), Upserting(page n), and the three
    terminal ones. *)
Inductive Status : Type :=
| Idle
| Starting
| Fetching (n : nat)
| Upserting (n : nat)
| Completed
| Failed
| Cancelled.

(** Modelled from the spec: what the orchestrator works on (sections 4.3
    and 5): the local store, of which it is the sole writer, its status,
    the shared cancellation signal, the running counter, and the pages the
    remote service has yet to serve to this run, in fetch order. *)
Record State : Type := mkState {
  store : gmap string Memo;
  status : Status;
  cancellation : bool;
  current : nat;
  todo : list (list Memo)
}.

(** Modelled from the spec: a sync is running in the states for which
    [start] answers [AlreadyRunning] (section 4.3). *)
Definition running (st : State) : bool :=
  match status st with
  | Starting | Fetching _ | Upserting _ => true
  | _ => false
  end.

Definition set_status (s : Status) (st : State) : State :=
  {| store := store st; status := s; cancellation := cancellation st;
     current := current st; todo := todo st |}.

(** Modelled from the spec: [cancel()] "sets a shared cancellation signal;
    is a no-op if no sync is running" (section 4.3). *)
Definition cancel (st : State) : State :=
  if running st then
    {| store := store st; status := status st; cancellation := true;
       current := current st; todo := todo st |}
  else st.

(** Modelled from the spec: the background task advanced to its next
    suspension point (sections 4.3 and 5), in a run without transport or
    storage errors.  A fetch that completes hands its page to the store;
    a commit that completes has applied the whole page as one unit
    ([upsert_page]), has added the page size to the running counter, and
    is followed by the one place where the cancellation signal is read:
    "checked only at this boundary, never mid-fetch".  The progress events
    and the metadata other than the status are left out: they touch
    neither the store nor the signal. *)
Definition tick (st : State) : State :=
  match status st with
  | Starting => set_status (Fetching 1) st
  | Fetching n =>
      match todo st with
      | [] => set_status Completed st
      | _ :: _ => set_status (Upserting n) st
      end
  | Upserting n =>
      match todo st with
      | [] => st
      | page :: rest =>
          {| store := Backend.upsert_page (store st) page;
             status :=
               if cancellation st then Cancelled
               else match rest with
                    | [] => Completed
                    | _ :: _ => Fetching (S n)
                    end;
             cancellation := cancellation st;
             current := current st + length page;
             todo := rest |}
      end
  | Idle | Completed | Failed | Cancelled => st
  end.

Fixpoint ticks (n : nat) (st : State) : State :=
  match n with
  | O => st
  | S n' => ticks n' (tick st)
  end.

(** The number of suspension points from a running state to the end of the
    commit of the page that is in flight, the next page boundary. *)
Definition to_boundary (st : State) : nat :=
  match status st with
  | Starting => 3
  | Fetching _ => 2
  | Upserting _ => 1
  | _ => 0
  end.

(** A back end that answers the command [cancel_sync] with [cancel]. *)
Definition handles_cancel (handle : SyncModal.Invoke -> State -> State) : Prop :=
  forall st, handle SyncModal.cancel_sync st = cancel st.

(** Modelled from the spec: the command [cancel_sync] is [cancel()]
    (section 6).  The other commands are outside this model and are left
    without effect. *)
Definition handle (c : SyncModal.Invoke) (st : State) : State :=
  match c with
  | SyncModal.cancel_sync => cancel st
  | _ => st
  end.

End Orchestrator.

(** ** A run over a store that is ahead of the remote pages *)

Module StaleRun.

(** The note [a] between its creation and its last edit. *)
Definition touched_a : Memo :=
  Samples.memo "a" "touched" "2024-01-15 14:30:00" "2024-02-10 09:00:00".


(** A run that observes the two older versions of [a], on two pages. *)
Definition pages : list (list Memo) := [[Samples.tie_a]; [touched_a]].

End StaleRun.

(** ** More of the front end *)

(** The number of elements of [l] that satisfy [p]. *)
Definition count {A : Type} (p : A -> bool) (l : list A) : nat :=
  length (List.filter p l).

(** ** Promises *)

Module Promise.

(** How an awaited promise settles: with a value, or with a rejection whose
    text is [String(err)]. *)
Inductive Outcome (A : Type) : Type :=
| fulfilled (value : A)
| failed (err : string).

Arguments fulfilled {A} value.
Arguments failed {A} err.

End Promise.

(** ** ExportPreview: [handleExport] *)

Module ExportFile.

(** One entry of [filters]. *)
Record Filter : Type := mkFilter {
  name : string;
  extensions : list string
}.

(** What [handleExport] does to the outside, in order. *)
Inductive Effect : Type :=
| save (defaultPath : string) (filters : list Filter)
| writeTextFile (path contents : string)
| alert (msg : string)
| onClose.

Definition extension (f : ExportPreview.ExportFormat) : string :=
  match f with
  | ExportPreview.json => "json"
  | ExportPreview.markdown => "md"
  | ExportPreview.table => "txt"
  end.

Definition filterName (f : ExportPreview.ExportFormat) : string :=
  match f with
  | ExportPreview.json => "JSON"
  | ExportPreview.markdown => "Markdown"
  | ExportPreview.table => "Text"
  end.

(** [defaultName]; [stamp] is [format(new Date(), "yyyyMMdd_HHmmss")]. *)
Definition defaultName (f : ExportPreview.ExportFormat) (stamp : string) : string :=
  "flomo_export_" +:+ stamp +:+ "." +:+ extension f.

Definition filters (f : ExportPreview.ExportFormat) : list Filter :=
  [{| name := filterName f; extensions := [extension f] |}].

Definition setExporting (b : bool) (e : option string) (st : ExportPreview.State)
    : ExportPreview.State :=
  {| ExportPreview.memos := ExportPreview.memos st;
     ExportPreview.selectedFormat := ExportPreview.selectedFormat st;
     ExportPreview.dateFormat := ExportPreview.dateFormat st;
     ExportPreview.customDateFormat := ExportPreview.customDateFormat st;
     ExportPreview.minimalMode := ExportPreview.minimalMode st;
     ExportPreview.compactJson := ExportPreview.compactJson st;
     ExportPreview.urlMode := ExportPreview.urlMode st;
     ExportPreview.orderBy := ExportPreview.orderBy st;
     ExportPreview.orderDir := ExportPreview.orderDir st;
     ExportPreview.limit := ExportPreview.limit st;
     ExportPreview.preview := ExportPreview.preview st;
     ExportPreview.isExporting := b;
     ExportPreview.error := e |}.

(** [handleExport], for a given answer of the save dialog ([None] is the
    [null] of a dismissed dialog) and a given settlement of the write.  The
    state returned is the one after the [finally] block. *)
Definition handleExport (stamp : string)
    (dialog : Promise.Outcome (option string)) (written : Promise.Outcome unit)
    (st : ExportPreview.State) : ExportPreview.State * list Effect :=
  let asked :=
    save (defaultName (ExportPreview.selectedFormat st) stamp)
      (filters (ExportPreview.selectedFormat st)) in
  match dialog with
  | Promise.failed err =>
      (setExporting false (Some ("Export failed: " +:+ err)) st, [asked])
  | Promise.fulfilled None => (setExporting false None st, [asked])
  | Promise.fulfilled (Some path) =>
      if Js.falsy path then (setExporting false None st, [asked])
      else
        let write := writeTextFile path (ExportPreview.preview st) in
        match written with
        | Promise.failed err =>
            (setExporting false (Some ("Export failed: " +:+ err)) st, [asked; write])
        | Promise.fulfilled _ =>
            (setExporting false None st,
             [asked; write;
              alert ("Exported "
                     +:+ pretty (length (ExportPreview.getProcessedMemos st))
                     +:+ " memos to " +:+ path);
              onClose])
        end
  end.

End ExportFile.

(** ** SyncModal: the remaining handlers, and the modal as a reactive system *)

Module SyncEvents.

(** What a handler of the modal does to the outside. *)
Inductive Effect : Type :=
| invoke (command : SyncModal.Invoke)
| onSyncComplete
| alert (msg : string).

(** [loadSyncStatus] after its [await]: a rejection is only logged. *)
Definition loadSyncStatus_settled (status : Promise.Outcome SyncModal.SyncStatus)
    (st : SyncModal.State) : SyncModal.State :=
  match status with
  | Promise.fulfilled s => SyncModal.setSyncStatus (Some s) st
  | Promise.failed _ => st
  end.

(** [clearData] up to its [await]; [confirmed] is the answer to [confirm],
    which is asked only when no sync is running. *)
Definition clearData_begin (confirmed : bool) (st : SyncModal.State)
    : SyncModal.State * list Effect :=
  if SyncModal.issyncing st then (st, [])
  else if confirmed then (st, [invoke SyncModal.clear_local_data])
  else (st, []).

(** [clearData] after its [await]. *)
Definition clearData_settled (outcome : SyncModal.Settled) (st : SyncModal.State)
    : SyncModal.State * list Effect :=
  match outcome with
  | SyncModal.resolved =>
      (SyncModal.setProgress None (SyncModal.setSyncStatus None st),
       [invoke SyncModal.get_sync_status; onSyncComplete])
  | SyncModal.rejected err => (st, [alert ("Failed to clear data: " +:+ err)])
  end.

(** Everything that can happen to the modal.  The settlements carry what
    the suspended handler has captured. *)
Inductive Event : Type :=
| click_start (token : string)
| start_settled (seen : option SyncModal.SyncProgress) (outcome : SyncModal.Settled)
| click_cancel
| cancel_settled (outcome : SyncModal.Settled)
| click_clear (confirmed : bool)
| clear_settled (outcome : SyncModal.Settled)
| progress_event (payload : SyncModal.SyncProgress)
| status_settled (status : Promise.Outcome SyncModal.SyncStatus).

Definition invoked (r : SyncModal.State * list SyncModal.Invoke)
    : SyncModal.State * list Effect :=
  (r.1, map invoke r.2).

(** The reaction of the modal to one event. *)
Definition react (ev : Event) (st : SyncModal.State) : SyncModal.State * list Effect :=
  match ev with
  | click_start token => invoked (SyncModal.startSync_begin token st)
  | start_settled seen SyncModal.resolved => (st, [])
  | start_settled seen (SyncModal.rejected err) =>
      invoked (SyncModal.startSync_catch seen err st)
  | click_cancel => invoked (SyncModal.cancelSync_begin st)
  | cancel_settled SyncModal.resolved => (st, [])
  | cancel_settled (SyncModal.rejected _) => (SyncModal.setIsCancelling false st, [])
  | click_clear confirmed => clearData_begin confirmed st
  | clear_settled outcome => clearData_settled outcome st
  | progress_event payload =>
      let '(st', calls, completed) := SyncModal.onSyncProgress payload st in
      (st', map invoke calls ++ (if completed then [onSyncComplete] else []))
  | status_settled status => (loadSyncStatus_settled status st, [])
  end.

(** A sequence of events, from the first to the last. *)
Fixpoint run (evs : list Event) (st : SyncModal.State)
    : SyncModal.State * list Effect :=
  match evs with
  | [] => (st, [])
  | ev :: rest =>
      let '(st1, out1) := react ev st in
      let '(st2, out2) := run rest st1 in
      (st2, out1 ++ out2)
  end.

(** The state of a freshly mounted modal. *)
Definition initial : SyncModal.State :=
  {| SyncModal.progress := None; SyncModal.syncStatus := None;
     SyncModal.issyncing := false; SyncModal.isCancelling := false |}.

(** The events after which the modal no longer counts a sync as running:
    a rejection of [sync_all_memos], or a progress event with the status
    ["completed"] or ["cancelled"]. *)
Definition ends_sync (ev : Event) : bool :=
  match ev with
  | start_settled _ (SyncModal.rejected _) => true
  | progress_event payload =>
      String.eqb (SyncModal.status payload) "completed"
      || String.eqb (SyncModal.status payload) "cancelled"
  | _ => false
  end.

Definition is_start (e : Effect) : bool :=
  match e with invoke (SyncModal.sync_all_memos _) => true | _ => false end.

Definition is_cancel (e : Effect) : bool :=
  match e with invoke SyncModal.cancel_sync => true | _ => false end.

Definition is_clear (e : Effect) : bool :=
  match e with invoke SyncModal.clear_local_data => true | _ => false end.

(** The buttons of the modal. *)
Inductive Button : Type := start_button | clear_button | cancel_button | close_button.

(** Which buttons the JSX renders and leaves enabled. *)
Definition clickable (token : string) (st : SyncModal.State) (b : Button) : bool :=
  match b with
  | start_button => negb (SyncModal.issyncing st) && negb (Js.falsy token)
  | clear_button => negb (SyncModal.issyncing st)
  | cancel_button => SyncModal.issyncing st && negb (SyncModal.isCancelling st)
  | close_button => negb (SyncModal.issyncing st && negb (SyncModal.isCancelling st))
  end.

End SyncEvents.

(** ** UpdateDialog *)

Module UpdateDialog.

Inductive UpdateStatus : Type :=
| checking | available | downloading | ready | failed | upToDate.
(* [failed] is the status ['error'] *)

(** What [check()] resolves to, as far as the dialog reads it. *)
Record Update : Type := mkUpdate {
  version : string;
  body : option string
}.

Record State : Type := mkState {
  status : UpdateStatus;
  progress : spec_float;
  error : option string;
  update : option Update;
  downloadedBytes : Z;
  totalBytes : Z
}.

(** The state on mount. *)
Definition initial : State :=
  {| status := checking; progress := Number.of_Z 0; error := None;
     update := None; downloadedBytes := 0; totalBytes := 0 |}.

(** A rejection: the message of an [Error], or something else. *)
Inductive Thrown : Type :=
| an_Error (message : string)
| another.

Definition messageOr (fallback : string) (err : Thrown) : string :=
  match err with
  | an_Error message => message
  | another => fallback
  end.

(** [checkForUpdate] up to its [await]. *)
Definition checkForUpdate_begin (st : State) : State :=
  {| status := checking; progress := Number.of_Z 0; error := None;
     update := update st; downloadedBytes := downloadedBytes st;
     totalBytes := totalBytes st |}.

(** [checkForUpdate] after [check()] has settled. *)
Definition checkForUpdate_settled (result : option Update + Thrown) (st : State) : State :=
  match result with
  | inl (Some updateResult) =>
      {| status := available; progress := progress st; error := error st;
         update := Some updateResult; downloadedBytes := downloadedBytes st;
         totalBytes := 0 |}
  | inl None =>
      {| status := upToDate; progress := progress st; error := error st;
         update := update st; downloadedBytes := downloadedBytes st;
         totalBytes := totalBytes st |}
  | inr err =>
      {| status := failed; progress := progress st;
         error := Some (messageOr "Failed to check for updates" err);
         update := update st; downloadedBytes := downloadedBytes st;
         totalBytes := totalBytes st |}
  end.

(** [downloadAndInstall] up to its [await]; the boolean tells whether the
    download was started. *)
Definition downloadAndInstall_begin (st : State) : State * bool :=
  match update st with
  | None => (st, false)
  | Some _ =>
      ({| status := downloading; progress := progress st; error := None;
          update := update st; downloadedBytes := downloadedBytes st;
          totalBytes := totalBytes st |}, true)
  end.

(** The callback passed to [update.downloadAndInstall], for an event that
    has both a [chunkLength] and a [contentLength]. *)
Definition onDownloadEvent (chunkLength contentLength : Z) (st : State) : State :=
  let downloaded := SyncModal.or_zero chunkLength in
  let total := SyncModal.or_zero contentLength in
  {| status := status st;
     progress :=
       if 0 <? total then
         Number.Math_round
           (Number.mul (Number.div (Number.of_Z downloaded) (Number.of_Z total))
              (Number.of_Z 100))
       else progress st;
     error := error st; update := update st;
     downloadedBytes := downloaded; totalBytes := total |}.

(** [downloadAndInstall] after the download has settled. *)
Definition downloadAndInstall_settled (result : unit + Thrown) (st : State) : State :=
  match result with
  | inl _ =>
      {| status := ready; progress := progress st; error := error st;
         update := update st; downloadedBytes := downloadedBytes st;
         totalBytes := totalBytes st |}
  | inr err =>
      {| status := failed; progress := progress st;
         error := Some (messageOr "Failed to download update" err);
         update := update st; downloadedBytes := downloadedBytes st;
         totalBytes := totalBytes st |}
  end.

(** The actions [renderActions] offers. *)
Inductive Action : Type :=
| close | later | download_update | restart_later | restart_now.

Definition renderActions (st : State) : list Action :=
  match status st with
  | checking => []
  | upToDate | failed => [close]
  | available => [later; download_update]
  | downloading => []          (* one disabled button *)
  | ready => [restart_later; restart_now]
  end.

Definition action_eqb (a b : Action) : bool :=
  match a, b with
  | close, close | later, later | download_update, download_update
  | restart_later, restart_later | restart_now, restart_now => true
  | _, _ => false
  end.

(** The dialog with its suspended handlers: how many calls of [check()] and
    how many downloads have not settled yet. *)
Record World : Type := mkWorld {
  state : State;
  checks : nat;
  downloads : nat
}.

Inductive Event : Type :=
| opened                                        (* [open] became true *)
| check_settled (result : option Update + Thrown)
| click (a : Action)
| download_event (chunkLength contentLength : Z)
| download_settled (result : unit + Thrown).

(** One step of the dialog; [None] when the event cannot occur: nothing
    settles that was not started, and only offered actions are clicked. *)
Definition step (ev : Event) (w : World) : option World :=
  match ev with
  | opened =>
      Some {| state := checkForUpdate_begin (state w);
              checks := S (checks w); downloads := downloads w |}
  | check_settled result =>
      match checks w with
      | O => None
      | S n =>
          Some {| state := checkForUpdate_settled result (state w);
                  checks := n; downloads := downloads w |}
      end
  | click a =>
      if negb (existsb (action_eqb a) (renderActions (state w))) then None
      else
        match a with
        | download_update =>
            let '(st, started) := downloadAndInstall_begin (state w) in
            Some {| state := st; checks := checks w;
                    downloads := if started then S (downloads w) else downloads w |}
        | _ => Some w
        end
  | download_event chunkLength contentLength =>
      match downloads w with
      | O => None
      | S _ =>
          Some {| state := onDownloadEvent chunkLength contentLength (state w);
                  checks := checks w; downloads := downloads w |}
      end
  | download_settled result =>
      match downloads w with
      | O => None
      | S n =>
          Some {| state := downloadAndInstall_settled result (state w);
                  checks := checks w; downloads := n |}
      end
  end.

Fixpoint steps (evs : list Event) (w : World) : option World :=
  match evs with
  | [] => Some w
  | ev :: rest =>
      match step ev w with
      | Some w' => steps rest w'
      | None => None
      end
  end.

Definition mounted : World := {| state := initial; checks := 0; downloads := 0 |}.

(** An update is at hand whenever the dialog offers, runs or has finished a
    download. *)
Definition update_at_hand (w : World) : Prop :=
  (status (state w) = available \/ status (state w) = downloading \/
   status (state w) = ready \/ (0 < downloads w)%nat) ->
  is_Some (update (state w)).

End UpdateDialog.

(** ** The settings store, [useAutoUpdate] and [UpdateSettings] *)

Module Settings.

(** The three keys of ['flomo-garden-settings.json'], each with the type
    its readers ask for; [None] is a key that is not set. *)
Record Store : Type := mkStore {
  autoCheckUpdates : option bool;
  updateCheckInterval : option string;
  lastUpdateCheck : option Z
}.

Definition set_autoCheckUpdates (v : bool) (s : Store) : Store :=
  {| autoCheckUpdates := Some v; updateCheckInterval := updateCheckInterval s;
     lastUpdateCheck := lastUpdateCheck s |}.
Definition set_updateCheckInterval (v : string) (s : Store) : Store :=
  {| autoCheckUpdates := autoCheckUpdates s; updateCheckInterval := Some v;
     lastUpdateCheck := lastUpdateCheck s |}.
Definition set_lastUpdateCheck (v : Z) (s : Store) : Store :=
  {| autoCheckUpdates := autoCheckUpdates s;
     updateCheckInterval := updateCheckInterval s; lastUpdateCheck := Some v |}.

(** The store file together with what the plugin lets a caller do with it:
    [load] and [get] reject unless it [loads], [set] and [save] reject
    unless it [saves]. *)
Record Disk : Type := mkDisk {
  contents : Store;
  loads : bool;
  saves : bool
}.

Definition write (f : Store -> Store) (d : Disk) : Disk :=
  {| contents := f (contents d); loads := loads d; saves := saves d |}.

End Settings.

Module useAutoUpdate.

(** One hour, in milliseconds. *)
Definition UPDATE_CHECK_INTERVAL : Z := 1000 * 60 * 60.

Record State : Type := mkState {
  updateAvailable : bool;
  lastCheck : option Z
}.

Definition initial : State := {| updateAvailable := false; lastCheck := None |}.

(** What a run of [checkForUpdatesIfNeeded] leaves behind: the state of the
    hook, the store, and whether [check()] was called. *)
Record Result : Type := mkResult {
  state : State;
  disk : Settings.Disk;
  checked : bool
}.

(** [checkForUpdatesIfNeeded]; [now] is [Date.now()], [update] is how
    [check()] settles if it is called ([None] inside is "no update"). *)
Definition checkForUpdatesIfNeeded (now : Z)
    (update : Promise.Outcome (option UpdateDialog.Update))
    (d : Settings.Disk) (st : State) : Result :=
  let unchanged := {| state := st; disk := d; checked := false |} in
  if negb (Settings.loads d) then unchanged
  else
    match Settings.autoCheckUpdates (Settings.contents d) with
    | Some false => unchanged
    | _ =>
        let recent :=
          match Settings.lastUpdateCheck (Settings.contents d) with
          | Some lastCheckTimestamp =>
              negb (lastCheckTimestamp =? 0)
              && (now - lastCheckTimestamp <? UPDATE_CHECK_INTERVAL)
          | None => false
          end in
        if recent then unchanged
        else
          match update with
          | Promise.failed _ => {| state := st; disk := d; checked := true |}
          | Promise.fulfilled found =>
              {| state := {| updateAvailable := bool_decide (is_Some found);
                             lastCheck := Some now |};
                 disk :=
                   if Settings.saves d
                   then Settings.write (Settings.set_lastUpdateCheck now) d
                   else d;
                 checked := true |}
          end
    end.

End useAutoUpdate.

Module UpdateSettings.

Record State : Type := mkState {
  autoCheck : bool;
  checkInterval : string;
  lastCheck : option Z;
  checking : bool
}.

Definition initial : State :=
  {| autoCheck := true; checkInterval := "hourly"; lastCheck := None;
     checking := false |}.

(** [loadSettings]. *)
Definition loadSettings (d : Settings.Disk) (st : State) : State :=
  if negb (Settings.loads d) then st
  else
    let s := Settings.contents d in
    {| autoCheck := from_option id (autoCheck st) (Settings.autoCheckUpdates s);
       checkInterval :=
         match Settings.updateCheckInterval s with
         | Some intervalValue =>
             if Js.falsy intervalValue then checkInterval st else intervalValue
         | None => checkInterval st
         end;
       lastCheck :=
         match Settings.lastUpdateCheck s with
         | Some lastCheckTime =>
             if lastCheckTime =? 0 then lastCheck st else Some lastCheckTime
         | None => lastCheck st
         end;
       checking := checking st |}.

(** [saveSettings], as created by the render that shows [st]. *)
Definition saveSettings (st : State) (d : Settings.Disk) : Settings.Disk :=
  if negb (Settings.loads d && Settings.saves d) then d
  else
    Settings.write
      (fun s => Settings.set_updateCheckInterval (checkInterval st)
                  (Settings.set_autoCheckUpdates (autoCheck st) s)) d.

(** [onCheckedChange] of the switch:
    [setAutoCheck(checked); saveSettings();]. *)
Definition onCheckedChange (checked : bool) (st : State) (d : Settings.Disk)
    : State * Settings.Disk :=
  ({| autoCheck := checked; checkInterval := checkInterval st;
      lastCheck := lastCheck st; checking := checking st |},
   saveSettings st d).

(** [onValueChange] of the frequency select:
    [setCheckInterval(value); saveSettings();]. *)
Definition onValueChange (value : string) (st : State) (d : Settings.Disk)
    : State * Settings.Disk :=
  ({| autoCheck := autoCheck st; checkInterval := value;
      lastCheck := lastCheck st; checking := checking st |},
   saveSettings st d).

(** What [checkNow] shows or signals at its end. *)
Inductive Notice : Type :=
| update_available_event       (* dispatchEvent(new CustomEvent('update-available')) *)
| alert (msg : string).

(** [checkNow], after its [finally] block; [now] is [new Date().getTime()]
    taken when [check()] has resolved. *)
Definition checkNow (now : Z)
    (update : Promise.Outcome (option UpdateDialog.Update))
    (st : State) (d : Settings.Disk) : State * Settings.Disk * Notice :=
  let failure := alert "Failed to check for updates. Please try again later." in
  match update with
  | Promise.failed _ =>
      ({| autoCheck := autoCheck st; checkInterval := checkInterval st;
          lastCheck := lastCheck st; checking := false |}, d, failure)
  | Promise.fulfilled found =>
      let st' :=
        {| autoCheck := autoCheck st; checkInterval := checkInterval st;
           lastCheck := Some now; checking := false |} in
      if negb (Settings.loads d && Settings.saves d) then (st', d, failure)
      else
        (st', Settings.write (Settings.set_lastUpdateCheck now) d,
         match found with
         | Some _ => update_available_event
         | None => alert "You are running the latest version!"
         end)
  end.

End UpdateSettings.

(** ** MemoContent: the language badge of a code block *)

Module MemoContent.

(** [\w]: a letter, a digit or the underscore. *)
Definition is_word (c : ascii) : bool :=
  let n := nat_of_ascii c in
  ((65 <=? n) && (n <=? 90) || (97 <=? n) && (n <=? 122)
   || (48 <=? n) && (n <=? 57) || (n =? 95))%nat.

(** The longest prefix matched by [\w*]. *)
Fixpoint word_prefix (s : string) : string :=
  match s with
  | String c rest => if is_word c then String c (word_prefix rest) else EmptyString
  | EmptyString => EmptyString
  end.

(** Whether [s] consists of word characters only. *)
Fixpoint all_word (s : string) : bool :=
  match s with
  | String c rest => is_word c && all_word rest
  | EmptyString => true
  end.

(** [s] without the prefix [p], if it starts with [p]. *)
Fixpoint strip_prefix (p s : string) : option string :=
  match p, s with
  | EmptyString, _ => Some s
  | String a p', String b s' => if Ascii.eqb a b then strip_prefix p' s' else None
  | String _ _, EmptyString => None
  end.

(** An attempt to match [language-(\w+)] at the start of [s]: the first
    group, if there is a match. *)
Definition match_here (s : string) : option string :=
  match strip_prefix "language-" s with
  | Some rest =>
      match word_prefix rest with
      | EmptyString => None
      | lang => Some lang
      end
  | None => None
  end.

(** [/language-(\w+)/.exec(s)]: the first group of the leftmost match. *)
Fixpoint exec_language (s : string) : option string :=
  match match_here s with
  | Some lang => Some lang
  | None =>
      match s with
      | String _ rest => exec_language rest
      | EmptyString => None
      end
  end.

(** The [code] renderer: the label of the badge it puts on the block, if it
    puts one.  [className] is [None] when the element has no class. *)
Definition code_badge (inline : bool) (className : option string) : option string :=
  if inline then None else exec_language (from_option id "" className).

End MemoContent.

(** ** Properties stated about the embedding *)

(** The order in which [sortMemos] leaves two memos: by the chosen field, in
    the chosen direction. *)
Definition in_order (ob : OrderBy) (od : OrderDir) (a b : Memo) : Prop :=
  match od with
  | asc => String.le (order_field ob a) (order_field ob b)
  | desc => String.le (order_field ob b) (order_field ob a)
  end.

(** The memos whose chosen field has the value [v]. *)
Definition has_field (ob : OrderBy) (v : string) (m : Memo) : bool :=
  String.eqb (order_field ob m) v.

(** A back end that returns at most [limit] rows for a request. *)
Definition honours_limit (db : Commands) : Prop :=
  forall ob od offset limit,
    (length (get_memos_from_db db ob od offset limit) <= limit)%nat /\
    forall query, (length (search_memos_from_db db query ob od offset limit) <= limit)%nat.

(** What a query function may answer when the command it invokes for
    [limit + 1 = 51] rows returns [fetched]: it throws exactly when the token
    is empty; otherwise the page has at most 50 memos, [has_more] tells
    whether more than 50 rows came back, and the memos are the first 50 rows. *)
Definition page_of (token : string) (hasLocalData : bool) (fetched : list Memo)
    (r : App.QueryResult) : Prop :=
  match r with
  | App.threw _ => Js.falsy token = true
  | App.returned page =>
      Js.falsy token = false /\
      (length (App.memos page) <= 50)%nat /\
      (App.has_more page = true <-> hasLocalData = true /\ (50 < length fetched)%nat) /\
      (hasLocalData = true -> App.memos page = take 50 fetched)
  end.

(** The position of a remainder [rho] of a division by [B] within a unit in
    the last place: exact, below the middle, the middle, above it. *)
Definition loc_of (rho B : Z) : location :=
  if rho =? 0 then loc_Exact else loc_Inexact (2 * rho ?= B).

(** The shift register [mrs] of [SpecFloat] holds the quotient of [A] by [B]
    with its round and sticky bits: [A = B * shr_m mrs + rho], where the
    round bit tells whether [rho] reaches half of [B] and the sticky bit
    whether it lies strictly inside one of the halves. *)
Definition loc_ok (A B : Z) (mrs : shr_record) : Prop :=
  0 <= shr_m mrs /\
  exists rho, 0 <= rho < B /\ A = B * shr_m mrs + rho /\
    shr_r mrs = (B <=? 2 * rho) /\
    shr_s mrs = negb (rho =? 0) && negb (2 * rho =? B).

(** [round(100 * current / total)] in exact arithmetic, a tie going up as
    [Math.round] does: the floor of [100 * current / total + 1/2]. *)
Definition exact_percentage (current total : Z) : Z :=
  (200 * current + total) / (2 * total).

(** Whether [100 * current / total] lies exactly half-way between two
    integers. *)
Definition exact_tie (current total : Z) : bool :=
  (200 * current + total) mod (2 * total) =? 0.

(** * Proofs *)

(** ** The stable sort *)

Section StableSort.
Context {A : Type}.
Variable cmp : A -> A -> Z.

Lemma sort_insert_perm (x : A) (l : list A) : Js.sort_insert cmp x l ≡ₚ x :: l.
Proof.
  induction l as [|y l IH]; simpl; [done|].
  destruct (cmp x y <=? 0); [done|].
  rewrite IH. apply Permutation_swap.
Qed.

Lemma sort_perm (l : list A) : Js.sort cmp l ≡ₚ l.
Proof.
  induction l as [|x l IH]; simpl; [done|].
  rewrite sort_insert_perm. by rewrite IH.
Qed.

Lemma sort_length (l : list A) : length (Js.sort cmp l) = length l.
Proof. apply Permutation_length, sort_perm. Qed.

(** Elements that the comparator separates strictly are never both kept by
    [p]: then sorting does not move the elements kept by [p] relative to
    each other. *)
Section Stable.
Variable p : A -> bool.
Hypothesis p_ties : forall x y, 0 < cmp x y -> p x = true -> p y = true -> False.

Lemma sort_insert_filter (x : A) (l : list A) :
  List.filter p (Js.sort_insert cmp x l) =
  if p x then x :: List.filter p l else List.filter p l.
Proof.
  induction l as [|y l IH]; simpl; [done|].
  destruct (cmp x y <=? 0) eqn:Hc; simpl; [done|].
  apply Z.leb_gt in Hc. rewrite IH.
  destruct (p x) eqn:Hx, (p y) eqn:Hy; try done.
  destruct (p_ties x y Hc Hx Hy).
Qed.

Lemma sort_filter (l : list A) : List.filter p (Js.sort cmp l) = List.filter p l.
Proof.
  induction l as [|x l IH]; simpl; [done|].
  rewrite sort_insert_filter, IH. done.
Qed.
End Stable.

(** For a comparator that is a total preorder the result is sorted. *)
Section Sorted.
Hypothesis cmp_total : forall x y, 0 < cmp x y -> cmp y x <= 0.
Hypothesis cmp_trans : forall x y z, cmp x y <= 0 -> cmp y z <= 0 -> cmp x z <= 0.

Lemma sort_insert_sorted (x : A) (l : list A) :
  StronglySorted (fun a b => cmp a b <= 0) l ->
  StronglySorted (fun a b => cmp a b <= 0) (Js.sort_insert cmp x l).
Proof.
  induction 1 as [|y l Hl IH Hy]; simpl.
  - repeat constructor.
  - destruct (cmp x y <=? 0) eqn:Hc.
    + apply Z.leb_le in Hc. constructor; [by constructor|].
      constructor; [done|].
      eapply Forall_impl; [exact Hy|]. intros z Hz. by eapply cmp_trans.
    + apply Z.leb_gt in Hc. constructor; [done|].
      rewrite sort_insert_perm. constructor; [by apply cmp_total | done].
Qed.

Lemma sort_sorted (l : list A) :
  StronglySorted (fun a b => cmp a b <= 0) (Js.sort cmp l).
Proof.
  induction l as [|x l IH]; simpl; [constructor|].
  by apply sort_insert_sorted.
Qed.
End Sorted.
End StableSort.

(** ** String comparison *)

Lemma ltb_false_leb (a b : string) : String.ltb a b = false <-> String.leb b a = true.
Proof.
  unfold String.ltb, String.leb. rewrite (String.compare_antisym b a).
  destruct (String.compare a b); simpl; split; congruence.
Qed.

Lemma ltb_true_leb (a b : string) : String.ltb a b = true -> String.leb a b = true.
Proof. unfold String.ltb, String.leb. by destruct (String.compare a b). Qed.

Lemma ltb_irrefl (a : string) : String.ltb a a = false.
Proof. apply ltb_false_leb. pose proof (String.leb_total a a). tauto. Qed.

Lemma ltb_asym (a b : string) : String.ltb a b = true -> String.ltb b a = false.
Proof. intros H. by apply ltb_false_leb, ltb_true_leb. Qed.

(** ** ExportPreview: ordering *)

Lemma compareMemos_le (ob : OrderBy) (od : OrderDir) (a b : Memo) :
  ExportPreview.compareMemos ob od a b <= 0 <-> in_order ob od a b.
Proof.
  unfold ExportPreview.compareMemos, in_order, String.le, Js.lt, Js.gt.
  destruct od.
  - destruct (String.ltb (order_field ob a) (order_field ob b)) eqn:H1.
    + apply ltb_true_leb in H1. rewrite H1. split; [done | lia].
    + destruct (String.ltb (order_field ob b) (order_field ob a)) eqn:H2.
      * apply ltb_asym in H2 as H3. pose proof (proj1 (ltb_false_leb _ _) H3).
        unfold String.ltb in H2. unfold String.leb.
        destruct (String.compare (order_field ob b) (order_field ob a)) eqn:Hc;
          try discriminate.
        rewrite String.compare_antisym, Hc. simpl. split; [lia | done].
      * apply ltb_false_leb in H2. rewrite H2. split; [done | lia].
  - destruct (String.ltb (order_field ob b) (order_field ob a)) eqn:H1.
    + apply ltb_true_leb in H1. rewrite H1. split; [done | lia].
    + destruct (String.ltb (order_field ob a) (order_field ob b)) eqn:H2.
      * unfold String.ltb in H2. unfold String.leb.
        destruct (String.compare (order_field ob a) (order_field ob b)) eqn:Hc;
          try discriminate.
        rewrite String.compare_antisym, Hc. simpl. split; [lia | done].
      * apply ltb_false_leb in H2. rewrite H2. split; [done | lia].
Qed.

Lemma compareMemos_total (ob : OrderBy) (od : OrderDir) (a b : Memo) :
  0 < ExportPreview.compareMemos ob od a b -> ExportPreview.compareMemos ob od b a <= 0.
Proof.
  intros H. apply compareMemos_le.
  assert (~ in_order ob od a b) as Hn by (rewrite <- compareMemos_le; lia).
  unfold in_order in *.
  destruct od;
    [destruct (String.le_total (order_field ob a) (order_field ob b))
    |destruct (String.le_total (order_field ob b) (order_field ob a))]; tauto.
Qed.

Lemma compareMemos_trans (ob : OrderBy) (od : OrderDir) (a b c : Memo) :
  ExportPreview.compareMemos ob od a b <= 0 ->
  ExportPreview.compareMemos ob od b c <= 0 ->
  ExportPreview.compareMemos ob od a c <= 0.
Proof.
  rewrite !compareMemos_le. unfold in_order.
  destruct od; intros H1 H2; [by etrans | by etrans].
Qed.

Lemma compareMemos_ties (ob : OrderBy) (od : OrderDir) (v : string) (a b : Memo) :
  0 < ExportPreview.compareMemos ob od a b ->
  has_field ob v a = true -> has_field ob v b = true -> False.
Proof.
  unfold has_field. intros H Ha%String.eqb_eq Hb%String.eqb_eq.
  unfold ExportPreview.compareMemos, Js.lt, Js.gt in H.
  rewrite Ha, Hb, ltb_irrefl in H. destruct od; lia.
Qed.

(** C2 (as amended): [getProcessedMemos] orders the memos by a stable sort on
    the chosen field alone.  For every list, field and direction the result
    is a permutation of the input, it is ordered by the field in the chosen
    direction, and memos with equal field values keep the relative order they
    had in the input; the slug is not consulted. *)
Theorem sortMemos_stable_by_field (ob : OrderBy) (od : OrderDir) (ms : list Memo) :
  ExportPreview.sortMemos ob od ms ≡ₚ ms /\
  StronglySorted (in_order ob od) (ExportPreview.sortMemos ob od ms) /\
  forall v, List.filter (has_field ob v) (ExportPreview.sortMemos ob od ms) =
            List.filter (has_field ob v) ms.
Proof.
  unfold ExportPreview.sortMemos. split; [apply sort_perm|]. split.
  - pose proof (sort_sorted (ExportPreview.compareMemos ob od)
                  (compareMemos_total ob od) (compareMemos_trans ob od) ms) as Hs.
    induction Hs as [|x l Hl IH Hx]; constructor; [done|].
    eapply Forall_impl; [exact Hx|]. intros y Hy. by apply compareMemos_le.
  - intros v. apply sort_filter. intros x y. apply compareMemos_ties.
Qed.

(** C2 (as stated) fails: two memos created in the same second come out in
    the order they went in, whichever slug is smaller, so the result depends
    on the input order and ties are not broken by slug. *)
Lemma sortMemos_ties_follow_input :
  created_at Samples.tie_a = created_at Samples.tie_b /\
  slug Samples.tie_a <> slug Samples.tie_b /\
  ExportPreview.sortMemos by_created_at asc [Samples.tie_b; Samples.tie_a]
    = [Samples.tie_b; Samples.tie_a] /\
  ExportPreview.sortMemos by_created_at asc [Samples.tie_a; Samples.tie_b]
    = [Samples.tie_a; Samples.tie_b] /\
  ~ (forall ob od ms ms', ms ≡ₚ ms' ->
       ExportPreview.sortMemos ob od ms = ExportPreview.sortMemos ob od ms').
Proof.
  split; [reflexivity|]. split; [discriminate|].
  split; [reflexivity|]. split; [reflexivity|].
  intros H.
  specialize (H by_created_at asc [Samples.tie_b; Samples.tie_a]
                [Samples.tie_a; Samples.tie_b] (Permutation_swap _ _ _)).
  discriminate H.
Qed.

(** ** ExportPreview: the limit *)

Lemma slice0_nonneg {A} (l : list A) (n : Z) :
  0 <= n ->
  Js.slice0 l (Js.Math_min (Js.Int n) (Js.Int (Z.of_nat (length l)))) =
  take (Nat.min (Z.to_nat n) (length l)) l.
Proof.
  intros Hn. unfold Js.slice0, Js.Math_min, Js.slice_end.
  destruct (Z.ltb_spec (Z.min n (Z.of_nat (length l))) 0) as [Hneg|Hneg]; [lia|].
  f_equal. lia.
Qed.

(** C10: for a numeric limit [n >= 0] the slice handed to the formatter is
    the prefix of the sorted list of length [min n (number of memos)]; with
    the limit field cleared it is the whole sorted list. *)
Theorem getProcessedMemos_limit (st : ExportPreview.State) :
  let sorted :=
    ExportPreview.sortMemos (ExportPreview.orderBy st) (ExportPreview.orderDir st)
      (ExportPreview.memos st) in
  (forall n : Z, 0 <= n ->
     ExportPreview.limit st = ExportPreview.limit_number (Js.Int n) ->
     ExportPreview.getProcessedMemos st
       = take (Nat.min (Z.to_nat n) (length (ExportPreview.memos st))) sorted /\
     ExportPreview.getProcessedMemos st `prefix_of` sorted /\
     length (ExportPreview.getProcessedMemos st)
       = Nat.min (Z.to_nat n) (length (ExportPreview.memos st))) /\
  (ExportPreview.limit st = ExportPreview.limit_cleared ->
     ExportPreview.getProcessedMemos st = sorted).
Proof.
  intros sorted.
  assert (length sorted = length (ExportPreview.memos st)) as Hlen
    by apply sort_length.
  split.
  - intros n Hn Hl. unfold ExportPreview.getProcessedMemos. rewrite Hl.
    fold sorted. rewrite slice0_nonneg by done. rewrite Hlen.
    split; [done|]. split.
    + apply prefix_take.
    + rewrite length_take. lia.
  - intros Hl. unfold ExportPreview.getProcessedMemos. rewrite Hl.
    fold sorted. rewrite slice0_nonneg by lia.
    rewrite Nat2Z.id, Nat.min_id. apply firstn_all.
Qed.

Lemma getProcessedMemos_limit_witness :
  let st2 :=
    ExportPreview.mkState [Samples.later_c; Samples.tie_a; Samples.tie_b]
      ExportPreview.markdown ExportPreview.fmt_ymd_hm "" false false
      ExportPreview.url_full by_created_at asc
      (ExportPreview.limit_number (Js.Int 2)) "" false None in
  let st0 :=
    ExportPreview.mkState [Samples.later_c; Samples.tie_a; Samples.tie_b]
      ExportPreview.markdown ExportPreview.fmt_ymd_hm "" false false
      ExportPreview.url_full by_created_at asc
      ExportPreview.limit_cleared "" false None in
  ExportPreview.getProcessedMemos st2 = [Samples.tie_a; Samples.tie_b] /\
  ExportPreview.getProcessedMemos st0 = [Samples.tie_a; Samples.tie_b; Samples.later_c].
Proof.
  intros st2 st0. split.
  - destruct (getProcessedMemos_limit st2) as [H _].
    destruct (H 2 ltac:(lia) eq_refl) as [-> _]. reflexivity.
  - destruct (getProcessedMemos_limit st0) as [_ H].
    rewrite (H eq_refl). reflexivity.
Defined.

(** ** SyncModal: the guards of [startSync] and [cancelSync] *)

(** C3: while a sync is in flight ([issyncing] is set) [startSync] is a
    no-op: the four state cells are left as they are and no command is
    invoked, so nothing reaches the back end and the running sync is not
    affected; this holds for every token and however a second command would
    have settled. *)
Theorem startSync_while_syncing
    (token : string) (outcome : SyncModal.Settled) (st : SyncModal.State) :
  SyncModal.issyncing st = true ->
  SyncModal.startSync token outcome st = (st, []) /\
  forall (B : Type) (handle : SyncModal.Invoke -> B -> B) (backend : B),
    SyncModal.deliver handle (SyncModal.startSync token outcome st).2 backend = backend.
Proof.
  intros Hs.
  assert (SyncModal.startSync token outcome st = (st, [])) as Heq.
  { unfold SyncModal.startSync, SyncModal.startSync_begin.
    rewrite Hs, orb_true_r. done. }
  split; [done|]. intros B handle backend. by rewrite Heq.
Qed.

Lemma startSync_while_syncing_witness :
  let st :=
    SyncModal.mkState
      (Some (SyncModal.mkProgress 120 50 "syncing" "Fetched 50 memos"))
      None true false in
  SyncModal.startSync "token" (SyncModal.rejected "network down") st = (st, []).
Proof.
  intros st. exact (proj1 (startSync_while_syncing "token" _ st eq_refl)).
Defined.

(** C6: with the empty token [startSync] is a no-op in every state: no
    command is invoked, [progress], [syncStatus] and the two flags are left
    as they are, and the back end (the store included) is not touched. *)
Theorem startSync_empty_token (outcome : SyncModal.Settled) (st : SyncModal.State) :
  SyncModal.startSync "" outcome st = (st, []) /\
  forall (B : Type) (handle : SyncModal.Invoke -> B -> B) (backend : B),
    SyncModal.deliver handle (SyncModal.startSync "" outcome st).2 backend = backend.
Proof. split; [reflexivity | intros; reflexivity]. Qed.

Lemma ticks_terminal (m : nat) (st : Orchestrator.State) :
  Orchestrator.running st = false -> Orchestrator.ticks m st = st.
Proof.
  intros Hr. induction m as [|m IH]; [done|]. simpl.
  assert (Orchestrator.tick st = st) as ->; [|exact IH].
  unfold Orchestrator.running in Hr. unfold Orchestrator.tick.
  by destruct (Orchestrator.status st).
Qed.

(** What a cancellation does to a run that has the page [page] in flight:
    nothing up to the next page boundary, and the end of the run there. *)
Lemma cancel_stops_at_boundary (orch : Orchestrator.State)
    (page : list Memo) (rest : list (list Memo)) :
  Orchestrator.running orch = true ->
  Orchestrator.todo orch = page :: rest ->
  (forall m, (m < Orchestrator.to_boundary orch)%nat ->
     Orchestrator.running (Orchestrator.ticks m (Orchestrator.cancel orch)) = true /\
     Orchestrator.store (Orchestrator.ticks m (Orchestrator.cancel orch))
       = Orchestrator.store orch /\
     Orchestrator.todo (Orchestrator.ticks m (Orchestrator.cancel orch))
       = Orchestrator.todo orch) /\
  let fin := Orchestrator.ticks (Orchestrator.to_boundary orch) (Orchestrator.cancel orch) in
  Orchestrator.status fin = Orchestrator.Cancelled /\
  Orchestrator.store fin = Backend.upsert_page (Orchestrator.store orch) page /\
  Orchestrator.todo fin = rest /\
  Orchestrator.current fin = (Orchestrator.current orch + length page)%nat /\
  forall m, Orchestrator.ticks m fin = fin.
Proof.
  destruct orch as [store status flag cur todo]. simpl. intros Hr ->.
  unfold Orchestrator.cancel, Orchestrator.to_boundary. rewrite Hr.
  unfold Orchestrator.running in Hr. simpl in *.
  destruct status as [| |n|n| | |]; try discriminate Hr; split.
  all: try (intros m Hm; repeat (destruct m as [|m]; [by simpl|]); lia).
  all: simpl; repeat split; intros m; by apply ticks_terminal.
Qed.

(** C4: when no sync is running [cancelSync] is a no-op: no command is
    invoked and no state cell changes, and the command [cancel_sync] itself
    leaves an orchestrator that is not running as it is.  When a sync is
    running the handler does at most one thing: it raises [isCancelling]
    and invokes [cancel_sync] once (nothing at all if the cancellation was
    already requested), leaving [issyncing], [progress] and [syncStatus] as
    they are, whether the command resolves or is rejected.  The command
    then sets the cancellation signal of the orchestrator and nothing else:
    the run is not stopped by it.  With a page in flight the run goes on to
    the next page boundary, still running and with the store untouched up
    to there; the page in flight is applied as a whole, the run ends
    [Cancelled] at that boundary, and no later page is ever applied. *)
Theorem cancelSync_guard (outcome : SyncModal.Settled) (st : SyncModal.State)
    (handle : SyncModal.Invoke -> Orchestrator.State -> Orchestrator.State)
    (orch : Orchestrator.State) :
  Orchestrator.handles_cancel handle ->
  let st' := (SyncModal.cancelSync outcome st).1 in
  let calls := (SyncModal.cancelSync outcome st).2 in
  let orch' := SyncModal.deliver handle calls orch in
  (SyncModal.issyncing st = false -> st' = st /\ calls = [] /\ orch' = orch) /\
  (Orchestrator.running orch = false -> orch' = orch) /\
  (SyncModal.issyncing st = true ->
     SyncModal.issyncing st' = true /\
     SyncModal.progress st' = SyncModal.progress st /\
     SyncModal.syncStatus st' = SyncModal.syncStatus st /\
     (if SyncModal.isCancelling st then st' = st /\ calls = []
      else calls = [SyncModal.cancel_sync] /\
           SyncModal.isCancelling st' =
             match outcome with
             | SyncModal.resolved => true
             | SyncModal.rejected _ => false
             end)) /\
  (SyncModal.issyncing st = true -> SyncModal.isCancelling st = false ->
   Orchestrator.running orch = true ->
     orch' = {| Orchestrator.store := Orchestrator.store orch;
                Orchestrator.status := Orchestrator.status orch;
                Orchestrator.cancellation := true;
                Orchestrator.current := Orchestrator.current orch;
                Orchestrator.todo := Orchestrator.todo orch |} /\
     Orchestrator.running orch' = true /\
     forall page rest, Orchestrator.todo orch = page :: rest ->
       (forall m, (m < Orchestrator.to_boundary orch)%nat ->
          Orchestrator.running (Orchestrator.ticks m orch') = true /\
          Orchestrator.store (Orchestrator.ticks m orch') = Orchestrator.store orch /\
          Orchestrator.todo (Orchestrator.ticks m orch') = Orchestrator.todo orch) /\
       let fin := Orchestrator.ticks (Orchestrator.to_boundary orch) orch' in
       Orchestrator.status fin = Orchestrator.Cancelled /\
       Orchestrator.store fin = Backend.upsert_page (Orchestrator.store orch) page /\
       Orchestrator.todo fin = rest /\
       Orchestrator.current fin = (Orchestrator.current orch + length page)%nat /\
       forall m, Orchestrator.ticks m fin = fin).
Proof.
  intros Hhandle st' calls orch'. subst st' calls orch'.
  assert (forall o, Orchestrator.running o = false -> Orchestrator.cancel o = o) as Hidle.
  { intros o Ho. unfold Orchestrator.cancel. by rewrite Ho. }
  unfold SyncModal.cancelSync, SyncModal.cancelSync_begin.
  destruct (SyncModal.issyncing st) eqn:Hs; simpl negb; cbv iota.
  - destruct (SyncModal.isCancelling st) eqn:Hc; simpl.
    + repeat split; try done.
    + destruct outcome; simpl; rewrite Hhandle.
      all: split; [done|]; split; [intros Ho; by apply Hidle|].
      all: split; [intros _; by rewrite ?Hs|]; intros _ _ Hr.
      all: assert (Orchestrator.cancel orch
                   = {| Orchestrator.store := Orchestrator.store orch;
                        Orchestrator.status := Orchestrator.status orch;
                        Orchestrator.cancellation := true;
                        Orchestrator.current := Orchestrator.current orch;
                        Orchestrator.todo := Orchestrator.todo orch |}) as Hcancel
             by (unfold Orchestrator.cancel; by rewrite Hr).
      all: split; [exact Hcancel|]; split; [by rewrite Hcancel|].
      all: intros page rest Htodo; by apply cancel_stops_at_boundary.
  - simpl. repeat split; try done.
Qed.

Lemma cancelSync_guard_witness :
  let idle := SyncModal.mkState None None false false in
  let busy :=
    SyncModal.mkState
      (Some (SyncModal.mkProgress 6 2 "syncing" "Fetched 2 memos"))
      None true false in
  let first := [Samples.edited_a; Samples.later_c] in
  let second := [Samples.tie_b; Samples.tie_a] in
  let third := [Samples.numbered 7] in
  let orch :=
    Orchestrator.mkState (Backend.sync_run ∅ [first])
      (Orchestrator.Fetching 2) false 2 [second; third] in
  let orch' :=
    SyncModal.deliver Orchestrator.handle
      (SyncModal.cancelSync SyncModal.resolved busy).2 orch in
  SyncModal.cancelSync SyncModal.resolved idle = (idle, []) /\
  SyncModal.issyncing (SyncModal.cancelSync SyncModal.resolved busy).1 = true /\
  Orchestrator.store (Orchestrator.ticks 1 orch') = Backend.sync_run ∅ [first] /\
  Orchestrator.running (Orchestrator.ticks 1 orch') = true /\
  Orchestrator.status (Orchestrator.ticks 2 orch') = Orchestrator.Cancelled /\
  Orchestrator.store (Orchestrator.ticks 2 orch') = Backend.sync_run ∅ [first; second] /\
  Orchestrator.todo (Orchestrator.ticks 2 orch') = [third].
Proof.
  intros idle busy first second third orch orch'.
  assert (Orchestrator.handles_cancel Orchestrator.handle) as Hh by (intros o; reflexivity).
  pose proof (cancelSync_guard SyncModal.resolved idle Orchestrator.handle orch Hh)
    as (Hidle & _).
  pose proof (cancelSync_guard SyncModal.resolved busy Orchestrator.handle orch Hh)
    as (_ & _ & Hmodal & Hrun).
  destruct (Hidle eq_refl) as (H1 & H2 & _).
  destruct (Hmodal eq_refl) as (H3 & _).
  destruct (Hrun eq_refl eq_refl eq_refl) as (_ & _ & H5).
  destruct (H5 second [third] eq_refl) as (Hbefore & Hstatus & Hstore & Htodo & _).
  destruct (Hbefore 1%nat) as (Hrunning & Hkept & _);
    [unfold orch; cbn [Orchestrator.to_boundary Orchestrator.status]; lia|].
  split; [reflexivity|]. split; [exact H3|].
  split; [exact Hkept|]. split; [exact Hrunning|].
  split; [exact Hstatus|]. split; [exact Hstore|]. exact Htodo.
Defined.

(** ** App: one page *)

Lemma toPage_spec (fetched : list Memo) (pageParam : nat) :
  (length fetched <= 51)%nat ->
  App.memos (App.toPage 50 fetched pageParam) = take 50 fetched /\
  (App.has_more (App.toPage 50 fetched pageParam) = true <-> (50 < length fetched)%nat) /\
  App.offset (App.toPage 50 fetched pageParam) = Some pageParam.
Proof.
  intros Hlen. unfold App.toPage. simpl.
  destruct (Nat.ltb_spec 50 (length fetched)) as [Hlt|Hge].
  - split; [|split; done].
    unfold Js.pop. rewrite removelast_firstn_len.
    replace (Nat.pred (length fetched)) with 50%nat by lia. done.
  - split; [|split; [split; [discriminate | lia] | done]].
    symmetry. apply firstn_all2. lia.
Qed.

Lemma page_of_toPage (token : string) (fetched : list Memo) (pageParam : nat) :
  Js.falsy token = false -> (length fetched <= 51)%nat ->
  page_of token true fetched (App.returned (App.toPage 50 fetched pageParam)).
Proof.
  intros Ht Hlen. destruct (toPage_spec fetched pageParam Hlen) as (Hm & Hh & _).
  unfold page_of. split; [done|]. split; [|split].
  - rewrite Hm, length_take. lia.
  - rewrite Hh. tauto.
  - done.
Qed.

(** C8: each page of the memos query and of the search query holds at most
    50 memos; [has_more] is set exactly when the command, asked for
    [limit + 1 = 51] rows, returned more than 50; and the page is the first
    50 rows, the 51st being dropped.  This holds for every offset and every
    back end that returns no more rows than it is asked for. *)
Theorem queryFn_page_bound (db : Commands) (token searchQuery : string)
    (hasLocalData : bool) (ob : OrderBy) (od : OrderDir) (pageParam : nat) :
  honours_limit db ->
  page_of token hasLocalData (get_memos_from_db db ob od pageParam 51)
    (App.memos_queryFn db token hasLocalData ob od pageParam) /\
  page_of token hasLocalData (search_memos_from_db db searchQuery ob od pageParam 51)
    (App.search_queryFn db token hasLocalData searchQuery ob od pageParam).
Proof.
  intros Hdb. destruct (Hdb ob od pageParam 51%nat) as [Hget Hsearch].
  specialize (Hsearch searchQuery).
  unfold App.memos_queryFn, App.search_queryFn.
  destruct (Js.falsy token) eqn:Ht; [by split|].
  destruct hasLocalData; simpl negb; cbv iota.
  - split; by apply page_of_toPage.
  - assert (forall fetched,
              page_of token false fetched
                (App.returned {| App.memos := []; App.has_more := false;
                                 App.offset := None |})) as Hempty.
    { intros fetched. unfold page_of. simpl. split; [done|]. split; [lia|].
      split; [|done]. split; [discriminate | intros [? _]; discriminate]. }
    split; apply Hempty.
Qed.

Lemma commands_honour_limit (store : gmap string Memo) :
  honours_limit (Backend.commands store).
Proof.
  intros ob od off lim. simpl. unfold Backend.get_page, Backend.search_page.
  split; [|intros query]; rewrite length_take; lia.
Qed.

(** ** App: the infinite query run to its end *)

Lemma fetchAllPages_more_fuel (queryFn : nat -> App.QueryResult)
    (fuel : nat) (pageParam : nat) (pages : list App.Page) :
  App.fetchAllPages queryFn fuel pageParam = Some pages ->
  App.fetchAllPages queryFn (S fuel) pageParam = Some pages.
Proof.
  revert pageParam pages. induction fuel as [|fuel IH]; intros off pages; [done|].
  intros H. simpl in H. change (App.fetchAllPages queryFn (S (S fuel)) off) with
    (match queryFn off with
     | App.threw _ => None
     | App.returned page =>
         match App.getNextPageParam page with
         | None => Some [page]
         | Some next =>
             match App.fetchAllPages queryFn (S fuel) next with
             | Some ps => Some (page :: ps)
             | None => None
             end
         end
     end).
  destruct (queryFn off) as [|page]; [done|].
  destruct (App.getNextPageParam page) as [next|]; [|done].
  destruct (App.fetchAllPages queryFn fuel next) as [ps|] eqn:Hps; [|done].
  by rewrite (IH next ps Hps).
Qed.

Lemma fetchAllPages_fuel_le (queryFn : nat -> App.QueryResult)
    (fuel fuel' : nat) (pageParam : nat) (pages : list App.Page) :
  (fuel <= fuel')%nat ->
  App.fetchAllPages queryFn fuel pageParam = Some pages ->
  App.fetchAllPages queryFn fuel' pageParam = Some pages.
Proof.
  induction 1 as [|fuel' _ IH]; [done|].
  intros H. by apply fetchAllPages_more_fuel, IH.
Qed.

(** Paging through a fixed list [all], 50 rows at a time with a probe row,
    reads the list from [offset] to its end. *)
Lemma fetchAllPages_list (queryFn : nat -> App.QueryResult) (all : list Memo) :
  (forall off, queryFn off = App.returned (App.toPage 50 (take 51 (drop off all)) off)) ->
  forall fuel off,
    ((length all - off) / 50 < fuel)%nat ->
    exists pages,
      App.fetchAllPages queryFn fuel off = Some pages /\
      App.getAllMemos pages = drop off all.
Proof.
  intros Hq. induction fuel as [|fuel IH]; intros off Hfuel; [lia|].
  assert (length (take 51 (drop off all)) <= 51)%nat as Hle
    by (rewrite length_take; lia).
  destruct (toPage_spec (take 51 (drop off all)) off Hle) as (Hm & Hh & Ho).
  cbn [App.fetchAllPages]. rewrite Hq.
  remember (App.toPage 50 (take 51 (drop off all)) off) as page eqn:Hpage.
  clear Hpage. unfold App.getNextPageParam. rewrite Ho.
  rewrite take_take in Hm. replace (50 `min` 51)%nat with 50%nat in Hm by lia.
  rewrite length_take, length_drop in Hh.
  destruct (App.has_more page) eqn:Hmore; cbn [negb].
  - pose proof (proj1 Hh eq_refl) as Hlt.
    destruct (IH (off + 50)%nat) as (pages & Hp & Hall).
    { assert (length all - off = (length all - (off + 50)) + 1 * 50)%nat as Heq by lia.
      rewrite Heq, Nat.div_add in Hfuel by lia. lia. }
    rewrite Hp. eexists; split; [done|].
    unfold App.getAllMemos in *. cbn [flat_map]. rewrite Hall, Hm.
    rewrite <- drop_drop. apply take_drop.
  - eexists; split; [done|].
    unfold App.getAllMemos. cbn [flat_map]. rewrite app_nil_r, Hm.
    assert (~ (50 < 51 `min` (length all - off))%nat) as Hn
      by (intros Hlt; apply Hh in Hlt; discriminate).
    apply firstn_all2. rewrite length_drop. lia.
Qed.

(** ** The store: slugs are the keys *)

Lemma rows_slugs (store : gmap string Memo) :
  Backend.well_formed store -> slug <$> Backend.rows store = (map_to_list store).*1.
Proof.
  intros Hwf. unfold Backend.rows.
  assert (forall kv, kv ∈ map_to_list store -> slug kv.2 = kv.1) as Hkv.
  { intros [k m] Hin. apply elem_of_map_to_list in Hin. simpl. by apply Hwf. }
  induction (map_to_list store) as [|kv l IH]; [done|].
  simpl. f_equal.
  - apply Hkv. left.
  - apply IH. intros kv' Hin. apply Hkv. by right.
Qed.

Lemma rows_length (store : gmap string Memo) :
  length (Backend.rows store) = size store.
Proof. unfold Backend.rows. by rewrite length_fmap, length_map_to_list. Qed.

Lemma ordered_rows_perm (ob : OrderBy) (od : OrderDir) (store : gmap string Memo) :
  Backend.ordered_rows ob od store ≡ₚ Backend.rows store.
Proof. apply sort_perm. Qed.

Lemma upsert_lookup_cases (store : gmap string Memo) (m : Memo) (k : string) :
  Backend.upsert store m !! k = store !! k \/
  (k = slug m /\ Backend.upsert store m !! k = Some m).
Proof.
  unfold Backend.upsert.
  destruct (store !! slug m) as [stored|] eqn:Hs;
    [destruct (Backend.superseded stored m); [by left|]|];
    (destruct (decide (slug m = k)) as [<-|Hne];
     [right; by rewrite lookup_insert_eq | left; by rewrite lookup_insert_ne]).
Qed.

Lemma upsert_well_formed (store : gmap string Memo) (m : Memo) :
  Backend.well_formed store -> Backend.well_formed (Backend.upsert store m).
Proof.
  intros Hwf k m' Hk.
  destruct (upsert_lookup_cases store m k) as [Heq|[-> Heq]];
    rewrite Heq in Hk; [by apply Hwf | congruence].
Qed.

Lemma upsert_page_well_formed (page : list Memo) (store : gmap string Memo) :
  Backend.well_formed store -> Backend.well_formed (Backend.upsert_page store page).
Proof.
  unfold Backend.upsert_page. revert store.
  induction page as [|m page IH]; intros store Hwf; [done|].
  simpl. by apply IH, upsert_well_formed.
Qed.

Lemma sync_run_well_formed (pages : list (list Memo)) (store : gmap string Memo) :
  Backend.well_formed store -> Backend.well_formed (Backend.sync_run store pages).
Proof.
  unfold Backend.sync_run. revert store.
  induction pages as [|page pages IH]; intros store Hwf; [done|].
  simpl. by apply IH, upsert_page_well_formed.
Qed.

Lemma empty_well_formed : Backend.well_formed ∅.
Proof. intros k m Hk. by rewrite lookup_empty in Hk. Qed.

(** C1: with a token configured and [hasLocalData] as [checkLocalData] sets
    it, the memos query over a store that holds [total_memos] rows and is not
    mutated meanwhile comes to an end (a number of fetches above
    [total_memos / 50] is enough), and the pages it has fetched with the
    offsets 0, 50, 100, ... list the rows of the store in the order of
    [get_page]: every slug of the store occurs, none occurs twice, and their
    number is [total_memos]. *)
Theorem pagination_exhaustive
    (store : gmap string Memo) (token : string) (ob : OrderBy) (od : OrderDir) :
  Backend.well_formed store ->
  Js.falsy token = false ->
  let db := Backend.commands store in
  let queryFn := App.memos_queryFn db token (App.checkLocalData db) ob od in
  exists pages : list App.Page,
    (forall fuel, (size store / 50 < fuel)%nat ->
       App.fetchAllPages queryFn fuel 0 = Some pages) /\
    App.getAllMemos pages = Backend.ordered_rows ob od store /\
    NoDup (slug <$> App.getAllMemos pages) /\
    Z.of_nat (length (slug <$> App.getAllMemos pages)) = Backend.total_memos store /\
    forall s, s ∈ slug <$> App.getAllMemos pages <-> is_Some (store !! s).
Proof.
  intros Hwf Htoken db queryFn.
  assert (exists pages,
            (forall fuel, (size store / 50 < fuel)%nat ->
               App.fetchAllPages queryFn fuel 0 = Some pages) /\
            App.getAllMemos pages = Backend.ordered_rows ob od store)
    as (pages & Hfetch & Hall).
  { subst queryFn. unfold App.memos_queryFn. rewrite Htoken.
    unfold App.checkLocalData. subst db. simpl status_total_memos.
    unfold Backend.total_memos.
    destruct (Z.ltb_spec 0 (Z.of_nat (size store))) as [Hpos|Hzero]; cbn [negb].
    - destruct (fetchAllPages_list
                  (fun pageParam =>
                     App.returned
                       (App.toPage 50
                          (get_memos_from_db (Backend.commands store) ob od pageParam
                             (50 + 1)) pageParam))
                  (Backend.ordered_rows ob od store) ltac:(done)
                  (S (size store / 50)) 0%nat) as (pages & Hp & Hall).
      { unfold Backend.ordered_rows.
        rewrite sort_length, rows_length, Nat.sub_0_r. lia. }
      exists pages. split; [|done].
      intros fuel Hfuel. eapply fetchAllPages_fuel_le; [|exact Hp]. lia.
    - exists [{| App.memos := []; App.has_more := false; App.offset := None |}].
      split.
      + intros [|fuel] Hfuel; [lia | done].
      + assert (size store = 0%nat) as Hsz by lia.
        apply map_size_empty_iff in Hsz. subst store.
        unfold Backend.ordered_rows, Backend.rows. by rewrite map_to_list_empty. }
  exists pages. split; [done|]. split; [done|].
  assert (slug <$> App.getAllMemos pages ≡ₚ (map_to_list store).*1) as Hperm.
  { rewrite Hall, <- rows_slugs by done. apply fmap_Permutation, ordered_rows_perm. }
  split; [|split].
  - rewrite Hperm. apply NoDup_fst_map_to_list.
  - rewrite Hperm. unfold Backend.total_memos.
    by rewrite length_fmap, length_map_to_list.
  - intros s. rewrite Hperm, list_elem_of_fmap. split.
    + intros ([k m] & -> & Hin). apply elem_of_map_to_list in Hin. by exists m.
    + intros [m Hm]. exists (s, m). split; [done | by apply elem_of_map_to_list].
Qed.

Lemma pagination_exhaustive_witness :
  exists pages : list App.Page,
    App.fetchAllPages
      (App.memos_queryFn (Backend.commands Samples.store120) "token"
         (App.checkLocalData (Backend.commands Samples.store120)) by_created_at desc)
      3 0 = Some pages /\
    NoDup (slug <$> App.getAllMemos pages) /\
    length (slug <$> App.getAllMemos pages) = 120%nat.
Proof.
  destruct (pagination_exhaustive Samples.store120 "token" by_created_at desc)
    as (pages & Hfetch & _ & Hnodup & Hlen & _).
  - apply sync_run_well_formed, empty_well_formed.
  - reflexivity.
  - exists pages. split; [|split].
    + apply Hfetch. vm_compute. lia.
    + exact Hnodup.
    + apply Nat2Z.inj. rewrite Hlen. vm_compute. reflexivity.
Defined.

Lemma queryFn_page_bound_witness :
  page_of "token" true
    (get_memos_from_db (Backend.commands Samples.store120) by_created_at desc 50 51)
    (App.memos_queryFn (Backend.commands Samples.store120) "token" true
       by_created_at desc 50) /\
  page_of "token" true
    (search_memos_from_db (Backend.commands Samples.store120) "NOTE"
       by_created_at desc 100 51)
    (App.search_queryFn (Backend.commands Samples.store120) "token" true "NOTE"
       by_created_at desc 100).
Proof.
  destruct (queryFn_page_bound (Backend.commands Samples.store120) "token" "NOTE" true
              by_created_at desc 50 (commands_honour_limit _)) as [H1 _].
  destruct (queryFn_page_bound (Backend.commands Samples.store120) "token" "NOTE" true
              by_created_at desc 100 (commands_honour_limit _)) as [_ H2].
  split; assumption.
Defined.

(** ** The store: last write wins *)










(** ** SyncModal: the percentage, in binary64 arithmetic

    [getProgressPercentage] divides, multiplies and rounds in binary64.  The
    lemmas below derive, from the definitions of [SpecFloat], what
    [binary_round_aux] returns in the normal range: the nearest 53-bit
    mantissa.  Everything is stated over integers: a value [A / B] in units
    of [2^e] and its rounded mantissa [mr] are related by
    [|2 * (A - B * mr)| <= B]. *)

(** [digits2_pos p] is the number of binary digits of [p]. *)
Lemma digits2_pos_bounds (p : positive) :
  2 ^ (Zpos (digits2_pos p) - 1) <= Zpos p < 2 ^ Zpos (digits2_pos p).
Proof.
  induction p as [p IH|p IH|]; simpl digits2_pos.
  - rewrite Pos2Z.inj_succ, Pos2Z.inj_xI.
    replace (Z.succ (Zpos (digits2_pos p)) - 1) with (Z.succ (Zpos (digits2_pos p) - 1)) by lia.
    rewrite !Z.pow_succ_r by lia. lia.
  - rewrite Pos2Z.inj_succ. change (Zpos p~0) with (2 * Zpos p).
    replace (Z.succ (Zpos (digits2_pos p)) - 1) with (Z.succ (Zpos (digits2_pos p) - 1)) by lia.
    rewrite !Z.pow_succ_r by lia. lia.
  - simpl. lia.
Qed.

(** The number of digits is determined by the two powers of two that
    enclose the number. *)
Lemma Zdigits2_unique (z d : Z) :
  0 < d -> 2 ^ (d - 1) <= z < 2 ^ d -> Zdigits2 z = d.
Proof.
  intros Hd [Hlo Hhi].
  assert (0 < z) as Hz by (pose proof (Z.pow_pos_nonneg 2 (d - 1)); lia).
  destruct z as [|p|p]; try lia. simpl.
  pose proof (digits2_pos_bounds p) as [Hl Hh].
  set (d' := Zpos (digits2_pos p)) in *.
  destruct (Z.lt_trichotomy d' d) as [Hlt|[Heq|Hgt]]; [|done|].
  - assert (2 ^ d' <= 2 ^ (d - 1)) by (apply Z.pow_le_mono_r; lia). lia.
  - assert (2 ^ d <= 2 ^ (d' - 1)) by (apply Z.pow_le_mono_r; lia). lia.
Qed.

(** Above the subnormal range a value with exponent [e] is rounded to a
    multiple of [2^(e - 53)]. *)
Lemma fexp_normal (e : Z) : -1021 <= e -> fexp 53 1024 e = e - 53.
Proof. intros H. unfold fexp, emin. lia. Qed.

(** One step of the shift register halves the mantissa; the round and
    sticky bits keep describing the same value, in units twice as large. *)
Lemma shr_1_ok (A B : Z) (mrs : shr_record) :
  0 < B -> loc_ok A B mrs -> loc_ok A (2 * B) (shr_1 mrs).
Proof.
  intros HB [Hm (rho & Hrho & HA & Hr & Hs)].
  destruct mrs as [m r s]. simpl in *.
  assert (r || s = negb (rho =? 0)) as Hrs.
  { subst r s. destruct (Z.eqb_spec rho 0) as [->|Hne]; simpl.
    - destruct (Z.leb_spec B (2 * 0)); [lia | done].
    - destruct (Z.leb_spec B (2 * rho)); [done|]. simpl.
      destruct (Z.eqb_spec (2 * rho) B); [lia | done]. }
  assert (forall m', 0 <= m' -> A = 2 * B * m' + (B + rho) ->
            loc_ok A (2 * B) {| shr_m := m'; shr_r := true; shr_s := r || s |}) as Hodd.
  { intros m' Hm' HA'. split; [done|]. exists (B + rho). simpl. rewrite Hrs.
    split; [lia|]. split; [lia|]. split.
    - symmetry. apply Z.leb_le. lia.
    - destruct (Z.eqb_spec rho 0) as [->|Hne]; simpl.
      + destruct (Z.eqb_spec (2 * (B + 0)) (2 * B)); [by rewrite andb_false_r | lia].
      + destruct (Z.eqb_spec (B + rho) 0); [lia|].
        destruct (Z.eqb_spec (2 * (B + rho)) (2 * B)); [lia | done]. }
  assert (forall m', 0 <= m' -> A = 2 * B * m' + rho ->
            loc_ok A (2 * B) {| shr_m := m'; shr_r := false; shr_s := r || s |}) as Heven.
  { intros m' Hm' HA'. split; [done|]. exists rho. simpl. rewrite Hrs.
    split; [lia|]. split; [lia|]. split.
    - symmetry. apply Z.leb_gt. lia.
    - destruct (Z.eqb_spec rho 0) as [->|Hne]; simpl; [done|].
      destruct (Z.eqb_spec (2 * rho) (2 * B)); [lia | done]. }
  destruct m as [|[p|p|]|p]; try lia; simpl.
  - apply Heven; lia.
  - apply Hodd; lia.
  - apply Heven; lia.
  - apply Hodd; lia.
Qed.

(** [n] steps divide by [2^n]. *)
Lemma iter_shr_1_ok (n : positive) (A B : Z) (mrs : shr_record) :
  0 < B -> loc_ok A B mrs -> loc_ok A (B * 2 ^ Zpos n) (SpecFloat.iter_pos shr_1 n mrs).
Proof.
  revert B mrs. induction n as [n IH|n IH|]; intros B mrs HB Hok; simpl SpecFloat.iter_pos.
  - assert (0 < 2 ^ Zpos n) by (apply Z.pow_pos_nonneg; lia).
    replace (B * 2 ^ Zpos n~1) with (2 * B * 2 ^ Zpos n * 2 ^ Zpos n).
    + apply IH; [nia|]. apply IH; [lia|]. by apply shr_1_ok.
    + rewrite (Pos2Z.inj_xI n), Z.pow_add_r, Z.pow_1_r by lia.
      replace (2 * Zpos n) with (Zpos n + Zpos n) by lia.
      rewrite Z.pow_add_r by lia. ring.
  - assert (0 < 2 ^ Zpos n) by (apply Z.pow_pos_nonneg; lia).
    replace (B * 2 ^ Zpos n~0) with (B * 2 ^ Zpos n * 2 ^ Zpos n).
    + apply IH; [nia|]. by apply IH.
    + rewrite (Pos2Z.inj_xO n).
      replace (2 * Zpos n) with (Zpos n + Zpos n) by lia.
      rewrite Z.pow_add_r by lia. ring.
  - replace (B * 2 ^ 1) with (2 * B) by lia. by apply shr_1_ok.
Qed.

(** [shr] shifts by [n] and raises the exponent by [n]. *)
Lemma shr_ok (A B : Z) (mrs : shr_record) (e n : Z) :
  0 < B -> 0 <= n -> loc_ok A B mrs ->
  loc_ok A (B * 2 ^ n) (shr mrs e n).1 /\ (shr mrs e n).2 = e + n.
Proof.
  intros HB Hn Hok. destruct n as [|n|n]; [| |lia]; simpl.
  - split; [|lia]. by rewrite Z.mul_1_r.
  - split; [|done]. by apply iter_shr_1_ok.
Qed.

(** [round_nearest_even] picks the mantissa or its successor, whichever is
    within half a unit of the value. *)
Lemma round_nearest_even_ok (A B : Z) (mrs : shr_record) :
  0 < B -> loc_ok A B mrs ->
  let mr := round_nearest_even (shr_m mrs) (loc_of_shr_record mrs) in
  shr_m mrs <= mr <= shr_m mrs + 1 /\
  - B <= 2 * (A - B * mr) <= B.
Proof.
  intros HB [Hm (rho & Hrho & HA & Hr & Hs)].
  destruct mrs as [m r s]. simpl in *.
  destruct (Z.leb_spec B (2 * rho)) as [Hge|Hlt]; subst r.
  - destruct (Z.eqb_spec rho 0) as [->|Hne]; [lia|].
    destruct (Z.eqb_spec (2 * rho) B) as [Heq|Hneq]; subst s; simpl.
    + destruct (Z.even m); nia.
    + nia.
  - destruct (Z.eqb_spec rho 0) as [->|Hne]; subst s; simpl; [nia|].
    destruct (Z.eqb_spec (2 * rho) B); [lia|]. simpl. nia.
Qed.

(** [binary_round_aux] on a positive value [A / B * 2^ex] whose integer part
    [mx] has at least 53 digits, away from underflow and overflow: the
    value is rounded to the nearest multiple [mr] of [2^(ex + d - 53)], and
    the result is [mr] in normal form (a mantissa of exactly 53 digits). *)
Lemma binary_round_aux_normal (A B : Z) (mx : positive) (ex : Z) (lx : location) :
  0 < B ->
  loc_ok A B (shr_record_of_loc (Zpos mx) lx) ->
  let d := Zpos (digits2_pos mx) in
  53 <= d -> -1074 <= ex + d - 53 -> ex + d - 53 < 971 ->
  exists (mr : Z) (M : positive) (E : Z),
    binary_round_aux 53 1024 false (Zpos mx) ex lx = S754_finite false M E /\
    2 ^ 52 <= mr <= 2 ^ 53 /\
    - (B * 2 ^ (d - 53)) <= 2 * (A - B * 2 ^ (d - 53) * mr) <= B * 2 ^ (d - 53) /\
    ((mr < 2 ^ 53 /\ Zpos M = mr /\ E = ex + d - 53) \/
     (mr = 2 ^ 53 /\ Zpos M = 2 ^ 52 /\ E = ex + d - 52)).
Proof.
  intros HB Hok d Hd Hlo Hhi.
  unfold binary_round_aux, shr_fexp.
  change (Zdigits2 (Zpos mx)) with d.
  rewrite fexp_normal by lia.
  replace (d + ex - 53 - ex) with (d - 53) by lia.
  destruct (shr_ok A B (shr_record_of_loc (Zpos mx) lx) ex (d - 53) HB ltac:(lia) Hok)
    as [Hok1 He1].
  destruct (shr (shr_record_of_loc (Zpos mx) lx) ex (d - 53)) as [mrs1 e1].
  simpl in Hok1, He1. subst e1.
  set (n := d - 53) in *.
  assert (0 < 2 ^ n) as Hpn by (apply Z.pow_pos_nonneg; lia).
  pose proof (digits2_pos_bounds mx) as [Hml Hmh]. fold d in Hml, Hmh.
  replace (d - 1) with (52 + n) in Hml by lia.
  replace d with (53 + n) in Hmh by lia.
  rewrite Z.pow_add_r in Hml, Hmh by lia.
  assert (2 ^ 52 <= shr_m mrs1 < 2 ^ 53) as Hm1.
  { destruct Hok as [_ (rho0 & Hrho0 & HA0 & _)].
    destruct Hok1 as [_ (rho1 & Hrho1 & HA1 & _)].
    assert (shr_m (shr_record_of_loc (Zpos mx) lx) = Zpos mx) as Hmx
      by (destruct lx as [|[]]; done).
    rewrite Hmx in HA0. nia. }
  destruct (round_nearest_even_ok A (B * 2 ^ n) mrs1 ltac:(nia) Hok1) as [Hmr Hnear].
  set (mr := round_nearest_even (shr_m mrs1) (loc_of_shr_record mrs1)) in *.
  assert (2 ^ 52 <= mr <= 2 ^ 53) as Hmr' by lia.
  destruct (Z.eq_dec mr (2 ^ 53)) as [Heq|Hne].
  - exists mr, (Z.to_pos (2 ^ 52)), (ex + d - 52).
    split; [|split; [done|split; [done|right; done]]].
    rewrite Heq.
    change (Zdigits2 (2 ^ 53)) with 54.
    rewrite fexp_normal by lia.
    replace (54 + (ex + n) - 53 - (ex + n)) with 1 by lia.
    change (shr (shr_record_of_loc (2 ^ 53) loc_Exact) (ex + n) 1)
      with ({| shr_m := Zpos 4503599627370496; shr_r := false; shr_s := false |},
            ex + n + 1).
    cbv beta iota. cbn [shr_m].
    destruct (Z.leb_spec (ex + n + 1) (1024 - 53)); [|lia].
    f_equal. subst n. lia.
  - exists mr, (Z.to_pos mr), (ex + d - 53).
    split; [|split; [done|split; [done|left; lia]]].
    rewrite (Zdigits2_unique mr 53) by lia.
    rewrite fexp_normal by lia.
    replace (53 + (ex + n) - 53 - (ex + n)) with 0 by lia.
    cbn [shr shr_record_of_loc shr_m]. clearbody mr.
    destruct mr as [|pm|pm]; try lia.
    destruct (Z.leb_spec (ex + n) (1024 - 53)); [|lia].
    f_equal. subst n. lia.
Qed.

(** [shl_align] shifts the mantissa to the left by appending zeros. *)
Lemma iter_xO_pow (p n : positive) : Zpos (Pos.iter xO p n) = Zpos p * 2 ^ Zpos n.
Proof.
  induction n as [|n IH] using Pos.peano_ind.
  - simpl. lia.
  - rewrite Pos.iter_succ, Pos2Z.inj_succ, Z.pow_succ_r by lia.
    change (Zpos (Pos.iter xO p n)~0) with (2 * Zpos (Pos.iter xO p n)).
    rewrite IH. ring.
Qed.

Lemma pow2_le_inv (a b : Z) : 0 <= b -> 2 ^ a <= 2 ^ b -> a <= b.
Proof. intros Hb H. apply (Z.pow_le_mono_r_iff 2); [lia | done | done]. Qed.

Lemma pow2_lt_inv (a b : Z) : 0 <= b -> 2 ^ a < 2 ^ b -> a < b.
Proof. intros Hb H. apply (Z.pow_lt_mono_r_iff 2); [lia | done | done]. Qed.

(** An integer below [2^53] is a double: mantissa [c * 2^k], exponent [-k]. *)
Lemma of_Z_normal (c : Z) :
  0 < c < 2 ^ 53 ->
  exists (M : positive) (k : Z),
    Number.of_Z c = S754_finite false M (- k) /\
    0 <= k <= 52 /\ Zpos M = c * 2 ^ k /\ 2 ^ 52 <= Zpos M < 2 ^ 53.
Proof.
  intros [Hc0 Hc]. destruct c as [|p|p]; try lia.
  pose proof (digits2_pos_bounds p) as [Hl Hh].
  set (d := Zpos (digits2_pos p)) in *.
  assert (1 <= d <= 53) as Hd.
  { split; [subst d; lia|]. 
    assert (d - 1 < 53); [|lia]. apply pow2_lt_inv; lia. }
  unfold Number.of_Z, binary_normalize, binary_round.
  change (Zpos (digits2_pos p) + 0) with d.
  unfold Number.prec, Number.emax. rewrite fexp_normal by lia.
  assert (exists M, shl_align p 0 (d - 53) = (M, d - 53) /\ Zpos M = Zpos p * 2 ^ (53 - d))
    as (M & -> & HM).
  { unfold shl_align. replace (d - 53 - 0) with (d - 53) by lia.
    destruct (d - 53) as [|n|n] eqn:Hn; try lia.
    - exists p. replace (53 - d) with 0 by lia. split; [done | rewrite Z.pow_0_r; lia].
    - exists (Pos.iter xO p n). split; [done|].
      rewrite iter_xO_pow. do 2 f_equal. lia. }
  assert (2 ^ 52 <= Zpos M < 2 ^ 53) as HMb.
  { assert (2 ^ 52 = 2 ^ (d - 1) * 2 ^ (53 - d)) as H52
      by (rewrite <- Z.pow_add_r by lia; f_equal; lia).
    assert (2 ^ 53 = 2 ^ d * 2 ^ (53 - d)) as H53
      by (rewrite <- Z.pow_add_r by lia; f_equal; lia).
    assert (0 < 2 ^ (53 - d)) by (apply Z.pow_pos_nonneg; lia).
    rewrite HM, H52, H53. nia. }
  assert (Zpos (digits2_pos M) = 53) as HdM
    by (apply (Zdigits2_unique (Zpos M) 53); [lia | done]).
  destruct (binary_round_aux_normal (Zpos M) 1 M (d - 53) loc_Exact) as
    (mr & M' & E & -> & Hmr & Hnear & Hcase); rewrite ?HdM; try lia.
  { split; [simpl; lia|]. exists 0. simpl. split; [lia|]. split; [lia|]. done. }
  rewrite HdM in Hnear, Hcase.
  replace (53 - 53) with 0 in Hnear by lia. rewrite Z.pow_0_r in Hnear.
  assert (mr = Zpos M) as -> by lia.
  destruct Hcase as [(_ & HM' & ->)|(Hbad & _)]; [|lia].
  exists M, (53 - d). assert (M' = M) as -> by lia.
  split; [f_equal; lia|]. split; [lia|]. split; [done|done].
Qed.

(** The location that [SFdiv_core_binary] computes from the remainder of
    the integer division is the one the shift register expects. *)
Lemma new_location_ok (B rho m : Z) :
  0 < B -> 0 <= rho < B -> 0 <= m ->
  loc_ok (B * m + rho) B (shr_record_of_loc m (new_location B rho)).
Proof.
  intros HB Hrho Hm.
  assert (forall l, l = loc_of rho B ->
            loc_ok (B * m + rho) B (shr_record_of_loc m l)) as Hloc.
  { intros l ->. unfold loc_of. split.
    - destruct (rho =? 0); [done|]. by destruct (2 * rho ?= B).
    - exists rho. split; [done|]. split.
      + destruct (rho =? 0); [done|]. by destruct (2 * rho ?= B).
      + destruct (Z.eqb_spec rho 0) as [->|Hne]; simpl.
        * split; [|done]. symmetry. apply Z.leb_gt. lia.
        * destruct (Z.compare_spec (2 * rho) B) as [Heq|Hlt|Hgt]; simpl.
          -- split; [symmetry; apply Z.leb_le; lia|].
             symmetry. apply negb_false_iff, Z.eqb_eq. done.
          -- split; [symmetry; apply Z.leb_gt; lia|].
             symmetry. apply negb_true_iff, Z.eqb_neq. lia.
          -- split; [symmetry; apply Z.leb_le; lia|].
             symmetry. apply negb_true_iff, Z.eqb_neq. lia. }
  apply Hloc. unfold new_location, loc_of.
  destruct (Z.even B) eqn:Heven.
  - unfold new_location_even. done.
  - unfold new_location_odd. destruct (rho =? 0); [done|]. f_equal.
    pose proof (Zmod_even B) as Hmod. rewrite Heven in Hmod.
    pose proof (Z.div_mod B 2 ltac:(lia)) as Hdiv. rewrite Hmod in Hdiv.
    destruct (Z.compare_spec (2 * rho + 1) B) as [H1|H1|H1];
      destruct (Z.compare_spec (2 * rho) B) as [H2|H2|H2]; try done; lia.
Qed.

(** A bound that holds after scaling by a positive [W] holds before. *)
Lemma scale_bounds (W X t : Z) :
  0 < W -> - (t * W) <= 2 * (W * X) <= t * W -> - t <= 2 * X <= t.
Proof. intros HW H. nia. Qed.

(** [current / total] for integers [0 < c <= t < 2^53]: the quotient is a
    double [Mq * 2^(-K)] that is at most one ([K >= 52]) and lies within
    half a unit in the last place of [c / t]. *)
Lemma div_spec (c t : Z) :
  0 < c -> c <= t -> t < 2 ^ 53 ->
  exists (Mq : positive) (K : Z),
    Number.div (Number.of_Z c) (Number.of_Z t) = S754_finite false Mq (- K) /\
    52 <= K <= 105 /\ 2 ^ 52 <= Zpos Mq < 2 ^ 53 /\
    - t <= 2 * (c * 2 ^ K - t * Zpos Mq) <= t.
Proof.
  intros Hc Hct Ht.
  destruct (of_Z_normal c ltac:(lia)) as (Mc & kc & -> & Hkc & HMc & HMcb).
  destruct (of_Z_normal t ltac:(lia)) as (Mt & kt & -> & Hkt & HMt & HMtb).
  assert (0 < 2 ^ kc) as Hpkc by (apply Z.pow_pos_nonneg; lia).
  assert (0 < 2 ^ kt) as Hpkt by (apply Z.pow_pos_nonneg; lia).
  (* [c <= t] has at most as many digits *)
  assert (kt <= kc) as Hk.
  { assert (kt + 52 < kc + 53); [|lia]. apply pow2_lt_inv; [lia|].
    rewrite !Z.pow_add_r by lia. nia. }
  assert (2 ^ kc = 2 ^ kt * 2 ^ (kc - kt)) as Hsplit
    by (rewrite <- Z.pow_add_r by lia; f_equal; lia).
  assert (0 < 2 ^ (kc - kt)) as Hpd by (apply Z.pow_pos_nonneg; lia).
  unfold Number.div, SFdiv, SFdiv_core_binary, Number.prec, Number.emax.
  rewrite !(Zdigits2_unique (Zpos _) 53) by lia.
  rewrite fexp_normal by lia.
  replace (Z.min (53 + - kc - (53 + - kt) - 53) (- kc - - kt)) with (kt - kc - 53) by lia.
  replace (- kc - - kt - (kt - kc - 53)) with 53 by lia.
  cbv beta iota zeta.
  rewrite Z.shiftl_mul_pow2 by lia.
  pose proof (Z_div_mod (Zpos Mc * 2 ^ 53) (Zpos Mt) ltac:(lia)) as Hdm.
  destruct (Z.div_eucl (Zpos Mc * 2 ^ 53) (Zpos Mt)) as [q r].
  destruct Hdm as [HA Hr].
  assert (2 ^ 52 <= q < 2 ^ 54) as Hq.
  { change (2 ^ 54) with (2 * 2 ^ 53). nia. }
  destruct q as [|mq|mq]; try lia.
  pose proof (digits2_pos_bounds mq) as [Hdl Hdh].
  set (d := Zpos (digits2_pos mq)) in *.
  assert (53 <= d <= 54) as Hd.
  { split.
    - assert (52 < d); [|lia]. apply pow2_lt_inv; lia.
    - assert (d - 1 < 54); [|lia]. apply pow2_lt_inv; lia. }
  change (xorb false false) with false.
  destruct (binary_round_aux_normal (Zpos Mc * 2 ^ 53) (Zpos Mt) mq (kt - kc - 53)
              (new_location (Zpos Mt) r)) as (mr & M & E & -> & Hmr & Hnear & Hcase);
    fold d; try lia.
  { rewrite HA. apply new_location_ok; lia. }
  fold d in Hnear, Hcase.
  set (n := d - 53) in *.
  set (K1 := 53 + kc - kt - n).
  assert (0 <= K1) as HK1 by (subst K1 n; lia).
  assert (0 < 2 ^ n) as Hpn by (apply Z.pow_pos_nonneg; subst n; lia).
  assert (0 < 2 ^ K1) as HpK1 by (apply Z.pow_pos_nonneg; lia).
  assert (2 ^ 53 * 2 ^ (kc - kt) = 2 ^ n * 2 ^ K1) as Hscale.
  { rewrite <- !Z.pow_add_r by (subst n; lia). f_equal. subst K1. lia. }
  (* the nearest-integer bound, in terms of [c] and [t] *)
  assert (- t <= 2 * (c * 2 ^ K1 - t * mr) <= t) as Hnear'.
  { apply (scale_bounds (2 ^ kt * 2 ^ n)); [by apply Z.mul_pos_pos|].
    replace (2 ^ kt * 2 ^ n * (c * 2 ^ K1 - t * mr))
      with (Zpos Mc * 2 ^ 53 - Zpos Mt * 2 ^ n * mr).
    - replace (t * (2 ^ kt * 2 ^ n)) with (Zpos Mt * 2 ^ n) by (rewrite HMt; ring).
      done.
    - rewrite HMc, HMt, Hsplit.
      replace (c * (2 ^ kt * 2 ^ (kc - kt)) * 2 ^ 53)
        with (c * 2 ^ kt * (2 ^ 53 * 2 ^ (kc - kt))) by ring.
      rewrite Hscale. ring. }
  (* the quotient is at most one *)
  assert (mr <= 2 ^ K1) as Hle1.
  { assert (c * 2 ^ K1 <= t * 2 ^ K1) by (apply Z.mul_le_mono_nonneg_r; lia).
    assert (t * (2 * mr) <= t * (2 * 2 ^ K1 + 1)) as Hm by lia.
    apply Z.mul_le_mono_pos_l in Hm; lia. }
  destruct Hcase as [(Hlt & HM & ->)|(Heq & HM & ->)].
  - exists M, K1. split; [f_equal; subst K1 n; lia|].
    assert (52 <= K1) by (apply pow2_le_inv; lia).
    split; [subst K1 n; lia|]. split; [lia|]. rewrite HM. done.
  - exists M, (K1 - 1). split; [f_equal; subst K1 n; lia|].
    assert (53 <= K1) by (apply pow2_le_inv; lia).
    split; [subst K1 n; lia|]. split; [lia|]. rewrite HM.
    assert (2 ^ K1 = 2 * 2 ^ (K1 - 1)) as HK
      by (rewrite <- Z.pow_succ_r by lia; f_equal; lia).
    rewrite Heq, HK in Hnear'. change (2 ^ 53) with (2 * 2 ^ 52) in Hnear'. lia.
Qed.

(** [q * 100] for a double [q = Mq * 2^(-K) <= 1]: the product is the
    multiple [mp] of [2^(-kp)] nearest to [100 * q], where [2^K] is
    [2^kp * J] with [J] 64 or 128, and [Math.round] of it is the floor of
    [mp / 2^kp + 1/2]. *)
Lemma mul100_spec (Mq : positive) (K : Z) :
  2 ^ 52 <= Zpos Mq < 2 ^ 53 -> 52 <= K <= 105 ->
  exists (Mp : positive) (Ep mp kp J : Z),
    Number.mul (S754_finite false Mq (- K)) (Number.of_Z 100) = S754_finite false Mp Ep /\
    (J = 64 \/ J = 128) /\ 2 ^ K = 2 ^ kp * J /\ 45 <= kp /\
    - J <= 2 * (100 * Zpos Mq - J * mp) <= J /\
    Number.round_half_up (Zpos Mp) Ep = (2 * mp + 2 ^ kp) / (2 * 2 ^ kp).
Proof.
  intros HMq HK.
  change (Number.of_Z 100) with (S754_finite false 7036874417766400 (-46)).
  unfold Number.mul, SFmul, Number.prec, Number.emax.
  change (xorb false false) with false.
  set (P := (Mq * 7036874417766400)%positive).
  assert (Zpos P = Zpos Mq * 100 * 2 ^ 46) as HP
    by (subst P; rewrite Pos2Z.inj_mul; change (2 ^ 46) with 70368744177664; lia).
  pose proof (digits2_pos_bounds P) as [Hdl Hdh].
  set (d := Zpos (digits2_pos P)) in *.
  assert (105 <= d <= 106) as Hd.
  { split.
    - assert (104 < d); [|lia]. apply pow2_lt_inv; [lia|].
      change (2 ^ 104) with (2 ^ 52 * 64 * 2 ^ 46). nia.
    - assert (d - 1 < 106); [|lia]. apply pow2_lt_inv; [lia|].
      change (2 ^ 106) with (2 ^ 53 * 128 * 2 ^ 46). nia. }
  destruct (binary_round_aux_normal (Zpos P) 1 P (- K + -46) loc_Exact)
    as (mr & M & E & -> & Hmr & Hnear & Hcase); fold d; try lia.
  { split; [simpl; lia|]. exists 0. simpl. split; [lia|]. split; [lia|]. done. }
  fold d in Hnear, Hcase.
  set (n := d - 53) in *.
  set (J := 2 ^ (n - 46)).
  set (kp := K + 46 - n).
  assert (J = 64 \/ J = 128) as HJ.
  { subst J. assert (n = 52 \/ n = 53) as [->| ->] by (subst n; lia); [left|right]; done. }
  assert (2 ^ n = 2 ^ 46 * J) as Hn
    by (subst J; rewrite <- Z.pow_add_r by (subst n; lia); f_equal; lia).
  assert (2 ^ K = 2 ^ kp * J) as HKp
    by (subst J kp; rewrite <- Z.pow_add_r by (subst n; lia); f_equal; lia).
  assert (45 <= kp) as Hkp by (subst kp n; lia).
  assert (0 < 2 ^ kp) as Hpkp by (apply Z.pow_pos_nonneg; lia).
  assert (- J <= 2 * (100 * Zpos Mq - J * mr) <= J) as Hnear'.
  { apply (scale_bounds (2 ^ 46)); [done|].
    rewrite HP, Hn in Hnear.
    replace (2 ^ 46 * (100 * Zpos Mq - J * mr))
      with (Zpos Mq * 100 * 2 ^ 46 - 1 * (2 ^ 46 * J) * mr) by ring.
    replace (J * 2 ^ 46) with (1 * (2 ^ 46 * J)) by ring. done. }
  exists M, E, mr, kp, J.
  split; [done|]. split; [done|]. split; [done|]. split; [done|]. split; [done|].
  unfold Number.round_half_up.
  destruct Hcase as [(Hlt & HM & ->)|(Heq & HM & ->)].
  - replace (- K + -46 + d - 53) with (- kp) by (subst kp n; lia).
    destruct (Z.leb_spec 0 (- kp)); [lia|].
    rewrite HM, Z.opp_involutive.
    replace (1 - - kp) with (Z.succ kp) by lia.
    rewrite Z.pow_succ_r by lia. done.
  - replace (- K + -46 + d - 52) with (1 - kp) by (subst kp n; lia).
    destruct (Z.leb_spec 0 (1 - kp)); [lia|].
    rewrite HM, Heq.
    replace (1 - (1 - kp)) with kp by lia.
    replace (- (1 - kp)) with (kp - 1) by lia.
    assert (2 ^ kp = 2 * 2 ^ (kp - 1)) as Hk
      by (rewrite <- Z.pow_succ_r by lia; f_equal; lia).
    replace (2 * 2 ^ 53 + 2 ^ kp) with (2 * (2 * 2 ^ 52 + 2 ^ (kp - 1)))
      by (rewrite Hk; change (2 ^ 53) with (2 * 2 ^ 52); ring).
    rewrite Z.div_mul_cancel_l by lia. done.
Qed.

(** The two rounding errors together: the rounded product [mp / Dp] differs
    from [100 * c / t] by less than [(100 + J) / (Dp * J)], which is too
    little to leave the interval [0, 100], and for [t <= 2^44] too little
    to cross a half-integer that [100 * c / t] does not lie on. *)
Lemma percent_arith (c t Dp J Mq mp : Z) :
  0 < c <= t -> 0 < Dp -> J = 64 \/ J = 128 -> 2 ^ 52 <= Dp * J ->
  - t <= 2 * (c * (Dp * J) - t * Mq) <= t ->
  - J <= 2 * (100 * Mq - J * mp) <= J ->
  let k := (2 * mp + Dp) / (2 * Dp) in
  0 <= k <= 100 /\
  (t <= 2 ^ 44 ->
   let kx := (200 * c + t) / (2 * t) in
   if (200 * c + t) mod (2 * t) =? 0 then k = kx \/ k = kx - 1 else k = kx).
Proof.
  intros Hct HDp HJ HD H1 H2 k.
  change (2 ^ 52) with 4503599627370496 in HD.
  set (N := 2 * mp + Dp) in *.
  (* the error of both roundings, scaled by [t * J] *)
  assert (- (t * (100 + J)) <= t * J * N - Dp * J * (200 * c + t) <= t * (100 + J)) as HE.
  { assert (- (t * J) <= 2 * (100 * (t * Mq) - J * (t * mp)) <= t * J) as H2t
      by (destruct HJ; subst J; nia).
    subst N. destruct HJ; subst J; lia. }
  assert (0 < t * J) as HtJ by (destruct HJ; subst J; lia).
  assert (forall a b, t * J * a <= t * J * b -> a <= b) as Hcancel_le
    by (intros a b; apply Z.mul_le_mono_pos_l; done).
  assert (forall a b, t * J * a < t * J * b -> a < b) as Hcancel_lt
    by (intros a b; apply Z.mul_lt_mono_pos_l; done).
  assert (forall a, 2 * Dp * a <= N -> a <= k) as Hlow
    by (intros a Ha; apply Z.div_le_lower_bound; lia).
  assert (forall a, N < 2 * Dp * a -> k < a) as Hup
    by (intros a Ha; apply Z.div_lt_upper_bound; lia).
  split.
  - split.
    + apply Hlow. apply Hcancel_le. destruct HJ; subst J; nia.
    + assert (k < 101); [|lia]. apply Hup. apply Hcancel_lt.
      destruct HJ; subst J; nia.
  - intros Ht kx. change (2 ^ 44) with 17592186044416 in Ht.
    pose proof (Z.div_mod (200 * c + t) (2 * t) ltac:(lia)) as Hu.
    pose proof (Z.mod_pos_bound (200 * c + t) (2 * t) ltac:(lia)) as Hw.
    fold kx in Hu. set (w := (200 * c + t) mod (2 * t)) in *.
    rewrite Hu in HE.
    assert (0 <= kx) as Hkx by (apply Z.div_pos; lia).
    destruct (Z.eqb_spec w 0) as [Hw0|Hw0].
    + assert (kx - 1 <= k).
      { apply Hlow, Hcancel_le. destruct HJ; subst J; nia. }
      assert (k < kx + 1).
      { apply Hup, Hcancel_lt. destruct HJ; subst J; nia. }
      lia.
    + assert (kx <= k).
      { apply Hlow, Hcancel_le.
        assert (Dp * J <= Dp * J * w) by nia.
        destruct HJ; subst J; nia. }
      assert (k < kx + 1).
      { apply Hup, Hcancel_lt.
        assert (Dp * J <= Dp * J * (2 * t - w)) by nia.
        destruct HJ; subst J; nia. }
      lia.
Qed.


(** The percentage of a progress event with [0 <= c <= t < 2^53]. *)
Lemma percentage_of_progress (c t : Z) (st msg : string) :
  0 <= c <= t -> 0 < t < 2 ^ 53 ->
  exists k,
    SyncModal.getProgressPercentage
      (Some {| SyncModal.total := t; SyncModal.current := c;
               SyncModal.status := st; SyncModal.message := msg |}) = Number.of_Z k /\
    0 <= k <= 100 /\
    (t <= 2 ^ 44 ->
     if exact_tie c t then k = exact_percentage c t \/ k = exact_percentage c t - 1
     else k = exact_percentage c t).
Proof.
  intros Hc Ht. unfold SyncModal.getProgressPercentage. cbn [SyncModal.total SyncModal.current].
  destruct (of_Z_normal t ltac:(lia)) as (Mt & kt & HofZt & Hkt & HMt & HMtb).
  assert (Number.is_zero (Number.of_Z t) = false) as -> by (by rewrite HofZt).
  destruct (Z.eq_dec c 0) as [->|Hc0].
  - exists 0. rewrite HofZt. split; [reflexivity|]. split; [lia|].
    intros _. unfold exact_tie, exact_percentage.
    replace (200 * 0 + t) with t by lia.
    rewrite (Z.mod_small t (2 * t)), (Z.div_small t (2 * t)) by lia.
    destruct (Z.eqb_spec t 0); [lia | done].
  - destruct (div_spec c t ltac:(lia) ltac:(lia) ltac:(lia))
      as (Mq & K & -> & HK & HMq & H1).
    destruct (mul100_spec Mq K HMq HK)
      as (Mp & Ep & mp & kp & J & -> & HJ & HKp & Hkp & H2 & Hround).
    assert (0 < 2 ^ kp) as Hpkp by (apply Z.pow_pos_nonneg; lia).
    assert (2 ^ 52 <= 2 ^ kp * J) as HD
      by (rewrite <- HKp; apply Z.pow_le_mono_r; lia).
    rewrite HKp in H1.
    destruct (percent_arith c t (2 ^ kp) J (Zpos Mq) mp ltac:(lia) Hpkp HJ HD H1 H2)
      as [Hrange Hexact].
    exists ((2 * mp + 2 ^ kp) / (2 * 2 ^ kp)).
    split; [|split; [done | exact Hexact]].
    unfold Number.Math_round, Number.of_Z. cbn [cond_Zopp]. by rewrite Hround.
Qed.

(** C9 (as amended): [getProgressPercentage] is total and returns 0 when the
    progress is absent or [total = 0].  For [0 <= current <= total < 2^53] it
    returns [Math.round] of the binary64 value of [(current / total) * 100],
    which is an integer between 0 and 100.  For [total <= 2^44] that integer
    is the exact [round(100 * current / total)], except where
    [100 * current / total] lies exactly half-way between two integers: there
    the rounding of the two floating-point operations decides between the
    two neighbours. *)
Theorem getProgressPercentage_range (p : SyncModal.SyncProgress) :
  SyncModal.getProgressPercentage None = Number.of_Z 0 /\
  (SyncModal.total p = 0 ->
   SyncModal.getProgressPercentage (Some p) = Number.of_Z 0) /\
  (0 <= SyncModal.current p <= SyncModal.total p ->
   0 < SyncModal.total p < 2 ^ 53 ->
   exists k,
     SyncModal.getProgressPercentage (Some p) = Number.of_Z k /\
     0 <= k <= 100 /\
     (SyncModal.total p <= 2 ^ 44 ->
      if exact_tie (SyncModal.current p) (SyncModal.total p)
      then k = exact_percentage (SyncModal.current p) (SyncModal.total p) \/
           k = exact_percentage (SyncModal.current p) (SyncModal.total p) - 1
      else k = exact_percentage (SyncModal.current p) (SyncModal.total p))).
Proof.
  split; [reflexivity|]. split.
  - intros Hz. unfold SyncModal.getProgressPercentage. by rewrite Hz.
  - intros Hc Ht. destruct p as [t c st msg]. by apply percentage_of_progress.
Qed.

Lemma getProgressPercentage_range_witness :
  exists k,
    SyncModal.getProgressPercentage
      (Some (SyncModal.mkProgress 120 50 "syncing" "Fetched 50 memos")) = Number.of_Z k /\
    0 <= k <= 100.
Proof.
  destruct (getProgressPercentage_range
              (SyncModal.mkProgress 120 50 "syncing" "Fetched 50 memos"))
    as (_ & _ & H).
  destruct H as (k & Hk & Hrange & _).
  - simpl. lia.
  - simpl. lia.
  - exists k. split; assumption.
Defined.

(** C9 (as stated) fails: with [current = 23] and [total = 40] the exact
    value [100 * 23 / 40] is 57.5, whose rounding is 58, but the quotient
    [23 / 40] is rounded to a double before it is multiplied by 100, the
    product is a double just below 57.5, and [Math.round] returns 57. *)
Lemma percentage_of_23_in_40 :
  let p := SyncModal.mkProgress 40 23 "syncing" "Fetched 23 memos" in
  0 <= SyncModal.current p <= SyncModal.total p /\
  2 * (100 * SyncModal.current p) = (2 * 57 + 1) * SyncModal.total p /\
  exact_percentage (SyncModal.current p) (SyncModal.total p) = 58 /\
  SyncModal.getProgressPercentage (Some p) = Number.of_Z 57 /\
  SyncModal.getProgressPercentage (Some p)
    <> Number.of_Z (exact_percentage (SyncModal.current p) (SyncModal.total p)).
Proof.
  intros p. split; [simpl; lia|]. split; [reflexivity|]. split; [reflexivity|].
  split; [vm_compute; reflexivity|]. vm_compute. discriminate.
Qed.

(** * Further properties of the front end *)

(** ** ExportPreview: every value of the limit field *)

Lemma slice0_prefix {A} (l : list A) (e : Js.int) : Js.slice0 l e `prefix_of` l.
Proof. unfold Js.slice0. apply prefix_take. Qed.

(** X1: whatever the limit field holds (a number of either sign, [NaN], or
    nothing), the slice handed to the formatter is a prefix of the sorted
    list, so it never holds more memos than the preview was given and never
    skips a memo that sorts before one it keeps. *)
Theorem getProcessedMemos_prefix (st : ExportPreview.State) :
  ExportPreview.getProcessedMemos st
    `prefix_of` ExportPreview.sortMemos (ExportPreview.orderBy st)
                  (ExportPreview.orderDir st) (ExportPreview.memos st) /\
  (length (ExportPreview.getProcessedMemos st) <= length (ExportPreview.memos st))%nat.
Proof.
  assert (ExportPreview.getProcessedMemos st
            `prefix_of` ExportPreview.sortMemos (ExportPreview.orderBy st)
                          (ExportPreview.orderDir st) (ExportPreview.memos st)) as Hp
    by apply slice0_prefix.
  split; [done|].
  apply prefix_length in Hp. unfold ExportPreview.sortMemos in Hp.
  by rewrite sort_length in Hp.
Qed.

(** X2: a negative limit [-k], which the number input accepts from the
    keyboard, does not export nothing: [slice] counts a negative end from
    the back, so the last [k] memos of the sorted list are dropped and the
    others exported. *)
Theorem getProcessedMemos_negative_limit (st : ExportPreview.State) (k : Z) :
  0 < k ->
  ExportPreview.limit st = ExportPreview.limit_number (Js.Int (- k)) ->
  ExportPreview.getProcessedMemos st
    = take (length (ExportPreview.memos st) - Z.to_nat k)
        (ExportPreview.sortMemos (ExportPreview.orderBy st)
           (ExportPreview.orderDir st) (ExportPreview.memos st)).
Proof.
  intros Hk Hl. unfold ExportPreview.getProcessedMemos. rewrite Hl.
  unfold Js.slice0, Js.Math_min, Js.slice_end, ExportPreview.sortMemos.
  rewrite sort_length.
  set (n := length (ExportPreview.memos st)).
  destruct (Z.ltb_spec (Z.min (- k) (Z.of_nat n)) 0) as [_|Hge]; [|lia].
  f_equal. lia.
Qed.

Lemma getProcessedMemos_negative_limit_witness :
  ExportPreview.getProcessedMemos
    (ExportPreview.mkState [Samples.later_c; Samples.tie_a; Samples.tie_b]
       ExportPreview.markdown ExportPreview.fmt_ymd_hm "" false false
       ExportPreview.url_full by_created_at asc
       (ExportPreview.limit_number (Js.Int (-1))) "" false None)
  = [Samples.tie_a; Samples.tie_b].
Proof.
  exact (getProcessedMemos_negative_limit
           (ExportPreview.mkState [Samples.later_c; Samples.tie_a; Samples.tie_b]
              ExportPreview.markdown ExportPreview.fmt_ymd_hm "" false false
              ExportPreview.url_full by_created_at asc
              (ExportPreview.limit_number (Js.Int (-1))) "" false None)
           1 ltac:(lia) eq_refl).
Defined.

(** X3: with the limit [NaN] (what [parseInt] makes of an input such as
    ".5") or 0, nothing is exported, whatever the memos are. *)
Theorem getProcessedMemos_nan_limit (st : ExportPreview.State) :
  ExportPreview.limit st = ExportPreview.limit_number Js.NaN \/
  ExportPreview.limit st = ExportPreview.limit_number (Js.Int 0) ->
  ExportPreview.getProcessedMemos st = [].
Proof.
  intros [Hl|Hl]; unfold ExportPreview.getProcessedMemos; rewrite Hl.
  - reflexivity.
  - unfold Js.slice0, Js.Math_min, Js.slice_end.
    destruct (Z.ltb_spec (Z.min 0 (Z.of_nat (length (ExportPreview.sortMemos
                (ExportPreview.orderBy st) (ExportPreview.orderDir st)
                (ExportPreview.memos st))))) 0); [lia|].
    replace (Z.min _ _) with 0 by lia. reflexivity.
Qed.

Lemma getProcessedMemos_nan_limit_witness :
  ExportPreview.getProcessedMemos
    (ExportPreview.mkState [Samples.later_c; Samples.tie_a]
       ExportPreview.markdown ExportPreview.fmt_ymd_hm "" false false
       ExportPreview.url_full by_created_at asc
       (ExportPreview.setLimit_onChange (Some Js.NaN)) "" false None)
  = [].
Proof. apply getProcessedMemos_nan_limit. left. reflexivity. Defined.

(** ** ExportPreview: sorting what is sorted *)

Lemma sort_sorted_id {A} (cmp : A -> A -> Z) (l : list A) :
  StronglySorted (fun a b => cmp a b <= 0) l -> Js.sort cmp l = l.
Proof.
  induction 1 as [|x l Hl IH Hx]; simpl; [done|].
  rewrite IH. destruct l as [|y l]; simpl; [done|].
  apply Forall_cons in Hx as [Hxy _].
  destruct (Z.leb_spec (cmp x y) 0); [done | lia].
Qed.

(** X4: memos that already come ordered by the chosen field, in the chosen
    direction, are left exactly as they are (ties included), and sorting
    twice is sorting once.  So the preview does not reshuffle a list that
    the back end has delivered in the order that is selected. *)
Theorem sortMemos_sorted_unchanged (ob : OrderBy) (od : OrderDir) (ms : list Memo) :
  (StronglySorted (in_order ob od) ms -> ExportPreview.sortMemos ob od ms = ms) /\
  ExportPreview.sortMemos ob od (ExportPreview.sortMemos ob od ms)
    = ExportPreview.sortMemos ob od ms.
Proof.
  assert (forall l, StronglySorted (in_order ob od) l ->
                    ExportPreview.sortMemos ob od l = l) as Hid.
  { intros l Hs. apply sort_sorted_id.
    induction Hs as [|x l' Hl IH Hx]; constructor; [done|].
    eapply Forall_impl; [exact Hx|]. intros y Hy. by apply compareMemos_le. }
  split; [apply Hid|].
  apply Hid.
  pose proof (sort_sorted (ExportPreview.compareMemos ob od)
                (compareMemos_total ob od) (compareMemos_trans ob od) ms) as Hs.
  unfold ExportPreview.sortMemos.
  induction Hs as [|x l' Hl IH Hx]; constructor; [done|].
  eapply Forall_impl; [exact Hx|]. intros y Hy. by apply compareMemos_le.
Qed.

Lemma sortMemos_sorted_unchanged_witness :
  ExportPreview.sortMemos by_created_at asc
    [Samples.tie_b; Samples.tie_a; Samples.later_c]
  = [Samples.tie_b; Samples.tie_a; Samples.later_c].
Proof.
  apply (proj1 (sortMemos_sorted_unchanged by_created_at asc _)).
  repeat constructor.
Defined.


(** X5: when the preview opens, and until an option is changed, nothing is
    cut off: the slice handed to the formatter holds every memo the preview
    was given, newest creation date first. *)
Theorem init_processes_all (ms : list Memo) :
  ExportPreview.getProcessedMemos (ExportPreview.init ms)
    = ExportPreview.sortMemos by_created_at desc ms /\
  ExportPreview.getProcessedMemos (ExportPreview.init ms) ≡ₚ ms.
Proof.
  assert (ExportPreview.getProcessedMemos (ExportPreview.init ms)
            = ExportPreview.sortMemos by_created_at desc ms) as Heq.
  { unfold ExportPreview.getProcessedMemos, ExportPreview.init,
      ExportPreview.sortMemos. simpl.
    set (sorted := Js.sort (ExportPreview.compareMemos by_created_at desc) ms).
    replace (length ms) with (length sorted) by apply sort_length.
    change (Js.Int (Z.of_nat (length sorted) `min` Z.of_nat (length sorted)))
      with (Js.Math_min (Js.Int (Z.of_nat (length sorted)))
              (Js.Int (Z.of_nat (length sorted)))).
    rewrite slice0_nonneg by lia.
    rewrite Nat2Z.id, Nat.min_id. apply firstn_all. }
  split; [done|]. rewrite Heq. apply sort_perm.
Qed.

(** ** ExportPreview: [handleExport] *)

(** Case analysis on the membership [H] in an explicit list. *)
Ltac elem_cases H :=
  repeat (apply elem_of_cons in H as [H|H]);
  try (by apply elem_of_nil in H); try discriminate H.


(** X6: the file that [handleExport] writes holds exactly the text of the
    preview pane, at the path the save dialog returned; nothing is written,
    no success is announced and the preview is not closed when the dialog is
    dismissed or fails, and the preview is closed only after a write that
    succeeded. *)
Theorem handleExport_writes_preview (stamp : string)
    (dialog : Promise.Outcome (option string)) (written : Promise.Outcome unit)
    (st : ExportPreview.State) :
  let effects := (ExportFile.handleExport stamp dialog written st).2 in
  (forall path contents,
     ExportFile.writeTextFile path contents ∈ effects ->
     contents = ExportPreview.preview st /\
     dialog = Promise.fulfilled (Some path) /\ Js.falsy path = false) /\
  (ExportFile.onClose ∈ effects ->
   exists path, ExportFile.writeTextFile path (ExportPreview.preview st) ∈ effects /\
                exists u, written = Promise.fulfilled u) /\
  (forall defaultPath filters,
     ExportFile.save defaultPath filters ∈ effects ->
     defaultPath = "flomo_export_" +:+ stamp +:+ "."
                   +:+ ExportFile.extension (ExportPreview.selectedFormat st) /\
     map ExportFile.extensions filters
       = [[ExportFile.extension (ExportPreview.selectedFormat st)]]).
Proof.
  intros effects. subst effects. unfold ExportFile.handleExport.
  destruct dialog as [[path|]|err]; [destruct (Js.falsy path) eqn:Hp;
    [|destruct written as [u|err]]| |]; cbn [snd];
    (split; [|split]);
    try (intros p c H; elem_cases H; injection H as -> ->; done);
    try (intros d f H; elem_cases H; injection H as -> ->; done);
    try (intros H; elem_cases H; fail).
  intros _. exists path. split; [right; left | by exists u].
Qed.

Lemma handleExport_writes_preview_witness :
  exists path,
    ExportFile.writeTextFile path (ExportPreview.preview (ExportPreview.init [Samples.tie_a]))
      ∈ (ExportFile.handleExport "20240115_143000"
           (Promise.fulfilled (Some "/home/me/notes.md")) (Promise.fulfilled tt)
           (ExportPreview.init [Samples.tie_a])).2 /\
    exists u, Promise.fulfilled tt = Promise.fulfilled u.
Proof.
  apply (proj1 (proj2 (handleExport_writes_preview "20240115_143000"
                         (Promise.fulfilled (Some "/home/me/notes.md"))
                         (Promise.fulfilled tt)
                         (ExportPreview.init [Samples.tie_a])))).
  do 3 right. left.
Defined.

(** X7: however the dialog and the write settle, [handleExport] leaves the
    export button enabled again ([isExporting] is false), changes no option
    and no memo, and reports an error exactly when the dialog or the write
    was rejected. *)
Theorem handleExport_settles (stamp : string)
    (dialog : Promise.Outcome (option string)) (written : Promise.Outcome unit)
    (st : ExportPreview.State) :
  let st' := (ExportFile.handleExport stamp dialog written st).1 in
  ExportPreview.isExporting st' = false /\
  ExportPreview.previewRequest st' = ExportPreview.previewRequest st /\
  ExportPreview.preview st' = ExportPreview.preview st /\
  (is_Some (ExportPreview.error st') <->
   (exists err, dialog = Promise.failed err) \/
   (exists path err, dialog = Promise.fulfilled (Some path) /\ Js.falsy path = false /\
                     written = Promise.failed err)).
Proof.
  intros st'. subst st'. unfold ExportFile.handleExport.
  destruct dialog as [[path|]|err]; [destruct (Js.falsy path) eqn:Hp;
    [|destruct written as [u|err]]| |]; cbn [fst];
    (split; [done|]); (split; [done|]); (split; [done|]); split.
  all: try (intros [x Hx]; discriminate Hx).
  all: try (intros [[e H]|(p & e & H1 & H2 & H3)]; simplify_eq; fail).
  all: try (intros _; by eexists).
  - intros [[e H]|(p & e & H1 & H2 & H3)]; [discriminate|].
    injection H1 as <-. congruence.
  - intros _. right. by exists path, err.
  - intros _. left. by exists err.
Qed.

Lemma handleExport_settles_witness :
  is_Some (ExportPreview.error
             (ExportFile.handleExport "20240115_143000"
                (Promise.fulfilled (Some "/home/me/notes.md"))
                (Promise.failed "permission denied")
                (ExportPreview.init [Samples.tie_a])).1).
Proof.
  apply (proj2 (proj2 (proj2 (proj2 (handleExport_settles "20240115_143000"
                                       (Promise.fulfilled (Some "/home/me/notes.md"))
                                       (Promise.failed "permission denied")
                                       (ExportPreview.init [Samples.tie_a])))))).
  right. exists "/home/me/notes.md", "permission denied". repeat split.
Defined.


(** ** SyncModal as a reactive system *)

(** What one event can do to the two flags. *)
Lemma react_flags (ev : SyncEvents.Event) (st : SyncModal.State) :
  let st' := (SyncEvents.react ev st).1 in
  (SyncModal.isCancelling st = true -> SyncModal.issyncing st = true) ->
  (SyncModal.isCancelling st' = true -> SyncModal.issyncing st' = true).
Proof.
  destruct st as [p s syncing cancelling].
  destruct ev as [token|seen [|err]| |[|err]|confirmed|[|err]|payload|[s'|err]];
    cbn -[Js.includes String.eqb]; try done.
  - unfold SyncModal.startSync_begin. simpl.
    destruct (Js.falsy token || syncing) eqn:Hg; simpl; [done|].
    apply orb_false_iff in Hg as [_ ->]. intros H Hc. by apply H in Hc.
  - unfold SyncModal.cancelSync_begin. simpl.
    destruct syncing, cancelling; simpl; try done.
  - unfold SyncEvents.clearData_begin. simpl.
    destruct syncing; [done|]. by destruct confirmed.
  - unfold SyncModal.onSyncProgress.
    destruct (String.eqb (SyncModal.status payload) "completed"
              || String.eqb (SyncModal.status payload) "cancelled"); simpl; done.
Qed.

(** X8: in every state the modal can reach from its mount, whatever the
    order of clicks, progress events and settlements, [isCancelling] is set
    only while [issyncing] is set: "Cancelling..." is never shown without a
    sync that the modal counts as running. *)
Theorem cancelling_implies_syncing (evs : list SyncEvents.Event) :
  let st := (SyncEvents.run evs SyncEvents.initial).1 in
  SyncModal.isCancelling st = true -> SyncModal.issyncing st = true.
Proof.
  assert (forall st0,
            (SyncModal.isCancelling st0 = true -> SyncModal.issyncing st0 = true) ->
            let st := (SyncEvents.run evs st0).1 in
            SyncModal.isCancelling st = true -> SyncModal.issyncing st = true) as H.
  { induction evs as [|ev evs IH]; intros st0 H0; simpl; [done|].
    pose proof (react_flags ev st0 H0) as H1.
    destruct (SyncEvents.react ev st0) as [st1 out1]. simpl in H1.
    specialize (IH st1 H1).
    destruct (SyncEvents.run evs st1) as [st2 out2]. exact IH. }
  apply H. simpl. discriminate.
Qed.

Lemma cancelling_implies_syncing_witness :
  SyncModal.issyncing
    (SyncEvents.run
       [SyncEvents.click_start "token";
        SyncEvents.progress_event (SyncModal.mkProgress 120 50 "syncing" "page 1");
        SyncEvents.click_cancel] SyncEvents.initial).1 = true.
Proof.
  apply (cancelling_implies_syncing
           [SyncEvents.click_start "token";
            SyncEvents.progress_event (SyncModal.mkProgress 120 50 "syncing" "page 1");
            SyncEvents.click_cancel]).
  reflexivity.
Defined.

Lemma count_app {A} (p : A -> bool) (l1 l2 : list A) :
  count p (l1 ++ l2) = (count p l1 + count p l2)%nat.
Proof. unfold count. by rewrite List.filter_app, length_app. Qed.

Lemma count_cons {A} (p : A -> bool) (x : A) (l : list A) :
  count p (x :: l) = ((if p x then 1 else 0) + count p l)%nat.
Proof. unfold count. simpl. by destruct (p x). Qed.

(** What one event contributes to the count of started syncs. *)
Lemma react_starts (ev : SyncEvents.Event) (st : SyncModal.State) :
  let '(st', out) := SyncEvents.react ev st in
  (count SyncEvents.is_start out + (if SyncModal.issyncing st' then 0 else 1)
   <= (if SyncModal.issyncing st then 0 else 1)
      + (if SyncEvents.ends_sync ev then 1 else 0))%nat.
Proof.
  destruct st as [p s syncing cancelling].
  destruct ev as [token|seen [|err]| |[|err]|confirmed|[|err]|payload|[s'|err]];
    cbn -[Js.includes String.eqb].
  - unfold SyncModal.startSync_begin. simpl.
    destruct (Js.falsy token), syncing; simpl; lia.
  - destruct syncing; lia.
  - lia.
  - unfold SyncModal.cancelSync_begin. simpl.
    destruct syncing, cancelling; simpl; lia.
  - destruct syncing; lia.
  - destruct syncing; lia.
  - unfold SyncEvents.clearData_begin. simpl.
    destruct syncing; simpl; [lia|]. destruct confirmed; simpl; lia.
  - destruct syncing; simpl; lia.
  - destruct syncing; simpl; lia.
  - unfold SyncModal.onSyncProgress.
    destruct (String.eqb (SyncModal.status payload) "completed"
              || String.eqb (SyncModal.status payload) "cancelled") eqn:He;
      cbn -[String.eqb].
    + destruct (String.eqb (SyncModal.status payload) "completed"),
        syncing; simpl; lia.
    + destruct syncing; simpl; lia.
  - destruct syncing; simpl; lia.
  - destruct syncing; simpl; lia.
Qed.

(** X9: the sync commands of the modal are bounded by the events that
    clear [issyncing].  Over any sequence of events, from any state, the
    number of [sync_all_memos] commands the modal invokes is at most one
    (none if [issyncing] is set at the start) plus the number of events that
    clear [issyncing]: a rejection of the command, or a progress event
    "completed" or "cancelled".  The bound follows the modal's own flag, not
    the back end: a cancelled run brings two such events, its progress event
    and the rejection of its command, so the bound does not limit the
    commands that are outstanding at the back end. *)
Theorem starts_bounded_by_ends (evs : list SyncEvents.Event) (st : SyncModal.State) :
  (count SyncEvents.is_start (SyncEvents.run evs st).2
   <= (if SyncModal.issyncing st then 0 else 1)
      + count SyncEvents.ends_sync evs)%nat.
Proof.
  revert st. induction evs as [|ev evs IH]; intros st.
  - cbn. lia.
  - rewrite count_cons. cbn [SyncEvents.run].
    pose proof (react_starts ev st) as H1.
    destruct (SyncEvents.react ev st) as [st1 out1].
    specialize (IH st1).
    destruct (SyncEvents.run evs st1) as [st2 out2]. cbn [snd] in *.
    rewrite count_app. lia.
Qed.


(** An event that does not end the sync leaves a running sync running, and
    makes the modal neither start a sync nor clear the data. *)
Lemma react_while_syncing (ev : SyncEvents.Event) (st : SyncModal.State) :
  SyncModal.issyncing st = true -> SyncEvents.ends_sync ev = false ->
  let '(st', out) := SyncEvents.react ev st in
  SyncModal.issyncing st' = true /\
  count SyncEvents.is_start out = 0%nat /\ count SyncEvents.is_clear out = 0%nat.
Proof.
  destruct st as [p s syncing cancelling]. simpl. intros -> Hend.
  destruct ev as [token|seen [|err]| |[|err]|confirmed|[|err]|payload|[s'|err]];
    cbn -[Js.includes String.eqb] in *; try done.
  - unfold SyncModal.startSync_begin. simpl. by rewrite orb_true_r.
  - unfold SyncModal.cancelSync_begin. simpl. by destruct cancelling.
  - unfold SyncModal.onSyncProgress. by rewrite Hend.
Qed.

(** X10: while the modal counts a sync as running, and until an event ends
    it, no sequence of clicks and settlements makes it clear the local data
    or start another sync, and the sync stays running. *)
Theorem nothing_clears_while_syncing
    (evs : list SyncEvents.Event) (st : SyncModal.State) :
  SyncModal.issyncing st = true ->
  count SyncEvents.ends_sync evs = 0%nat ->
  let '(st', out) := SyncEvents.run evs st in
  SyncModal.issyncing st' = true /\
  count SyncEvents.is_start out = 0%nat /\ count SyncEvents.is_clear out = 0%nat.
Proof.
  revert st. induction evs as [|ev evs IH]; intros st Hs Hend; [done|].
  rewrite count_cons in Hend.
  destruct (SyncEvents.ends_sync ev) eqn:Hev; [lia|].
  cbn [SyncEvents.run].
  pose proof (react_while_syncing ev st Hs Hev) as H1.
  destruct (SyncEvents.react ev st) as [st1 out1]. destruct H1 as (Hs1 & Ha & Hb).
  specialize (IH st1 Hs1 ltac:(lia)).
  destruct (SyncEvents.run evs st1) as [st2 out2]. destruct IH as (Hs2 & Hc & Hd).
  rewrite !count_app. split; [done|]. lia.
Qed.

Lemma nothing_clears_while_syncing_witness :
  count SyncEvents.is_clear
    (SyncEvents.run
       [SyncEvents.click_clear true;
        SyncEvents.progress_event (SyncModal.mkProgress 120 50 "syncing" "page 1");
        SyncEvents.click_cancel; SyncEvents.click_clear true;
        SyncEvents.click_start "token"]
       (SyncModal.mkState None None true false)).2 = 0%nat.
Proof.
  pose proof (nothing_clears_while_syncing
                [SyncEvents.click_clear true;
                 SyncEvents.progress_event (SyncModal.mkProgress 120 50 "syncing" "page 1");
                 SyncEvents.click_cancel; SyncEvents.click_clear true;
                 SyncEvents.click_start "token"]
                (SyncModal.mkState None None true false) eq_refl eq_refl) as H.
  exact (proj2 (proj2 H)).
Defined.

(** What an event does when no sync is running: it sends no cancellation,
    and if it leaves a sync running it has started one, with a token. *)
Lemma react_while_idle (ev : SyncEvents.Event) (st : SyncModal.State) :
  SyncModal.issyncing st = false ->
  let '(st', out) := SyncEvents.react ev st in
  (SyncEvents.invoke SyncModal.cancel_sync ∉ out) /\
  (SyncModal.issyncing st' = true ->
   exists token, SyncEvents.invoke (SyncModal.sync_all_memos token) ∈ out /\
                 Js.falsy token = false).
Proof.
  destruct st as [p s syncing cancelling]. simpl. intros ->.
  destruct ev as [token|seen [|err]| |[|err]|confirmed|[|err]|payload|[s'|err]];
    cbn -[Js.includes String.eqb].
  all: try (split; [intros H; elem_cases H | intros H; discriminate H]).
  - unfold SyncModal.startSync_begin. simpl.
    destruct (Js.falsy token) eqn:Ht; simpl.
    + split; [intros H; elem_cases H | intros H; discriminate H].
    + split; [intros H; elem_cases H|]. intros _. exists token. split; [left | done].
  - unfold SyncEvents.clearData_begin. simpl. destruct confirmed; simpl;
      (split; [intros H; elem_cases H | intros H; discriminate H]).
  - unfold SyncModal.onSyncProgress.
    destruct (String.eqb (SyncModal.status payload) "completed"
              || String.eqb (SyncModal.status payload) "cancelled");
      [destruct (String.eqb (SyncModal.status payload) "completed")|];
      cbn -[String.eqb];
      (split; [intros H; elem_cases H | intros H; discriminate H]).
Qed.

Lemma app_eq_split {A} (x : A) (l1 l2 pre post : list A) :
  x ∉ l1 -> l1 ++ l2 = pre ++ x :: post ->
  exists pre', pre = l1 ++ pre' /\ l2 = pre' ++ x :: post.
Proof.
  revert pre. induction l1 as [|y l1 IH]; intros pre Hx Heq; simpl in *.
  - by exists pre.
  - destruct pre as [|z pre]; simpl in Heq.
    + injection Heq as -> _. destruct Hx. left.
    + injection Heq as <- Heq. destruct (IH pre) as (pre' & -> & ->); [|done|].
      * intros H. apply Hx. by right.
      * by exists pre'.
Qed.

Lemma cancel_after_start (evs : list SyncEvents.Event) (st : SyncModal.State)
    (pre post : list SyncEvents.Effect) :
  SyncModal.issyncing st = false ->
  (SyncEvents.run evs st).2 = pre ++ SyncEvents.invoke SyncModal.cancel_sync :: post ->
  exists token, SyncEvents.invoke (SyncModal.sync_all_memos token) ∈ pre /\
                Js.falsy token = false.
Proof.
  revert st pre. induction evs as [|ev evs IH]; intros st pre Hs Heq.
  - simpl in Heq. by destruct pre.
  - cbn [SyncEvents.run] in Heq.
    pose proof (react_while_idle ev st Hs) as H1.
    pose proof (react_while_syncing) as Hsync.
    destruct (SyncEvents.react ev st) as [st1 out1] eqn:Hreact.
    destruct H1 as [Hno Hstart].
    destruct (SyncEvents.run evs st1) as [st2 out2] eqn:Hrun. cbn [snd] in Heq.
    destruct (app_eq_split _ _ _ _ _ Hno Heq) as (pre' & -> & Hout2).
    destruct (SyncModal.issyncing st1) eqn:Hs1.
    + destruct (Hstart eq_refl) as (token & Hin & Ht).
      exists token. split; [|done]. apply elem_of_app. by left.
    + destruct (IH st1 pre' Hs1) as (token & Hin & Ht).
      { by rewrite Hrun. }
      exists token. split; [|done]. apply elem_of_app. by right.
Qed.

(** X11: the modal never asks the back end to cancel before it has asked
    for a sync: in the commands it sends after its mount, every
    [cancel_sync] comes after a [sync_all_memos], and that one carries a
    token that is not empty. *)
Theorem cancel_only_after_start (evs : list SyncEvents.Event)
    (pre post : list SyncEvents.Effect) :
  (SyncEvents.run evs SyncEvents.initial).2
    = pre ++ SyncEvents.invoke SyncModal.cancel_sync :: post ->
  exists token, SyncEvents.invoke (SyncModal.sync_all_memos token) ∈ pre /\
                Js.falsy token = false.
Proof. by apply cancel_after_start. Qed.

Lemma cancel_only_after_start_witness :
  exists token,
    SyncEvents.invoke (SyncModal.sync_all_memos token)
      ∈ [SyncEvents.invoke (SyncModal.sync_all_memos "token")] /\
    Js.falsy token = false.
Proof.
  apply (cancel_only_after_start
           [SyncEvents.click_cancel; SyncEvents.click_start "token";
            SyncEvents.click_cancel]
           [SyncEvents.invoke (SyncModal.sync_all_memos "token")] []).
  reflexivity.
Defined.

(** X12: the buttons and the guards agree.  A button that the modal shows
    and leaves enabled does something when it is clicked, and a handler
    called while its button is hidden or disabled does nothing: the start
    button and the guard of [startSync], the cancel button and the guard of
    [cancelSync], the clear button and the guard of [clearData]. *)
Theorem buttons_match_guards (token : string) (st : SyncModal.State) :
  (SyncEvents.clickable token st SyncEvents.start_button = true <->
   (SyncModal.startSync_begin token st).2 = [SyncModal.sync_all_memos token]) /\
  (SyncEvents.clickable token st SyncEvents.start_button = false <->
   SyncModal.startSync_begin token st = (st, [])) /\
  (SyncEvents.clickable token st SyncEvents.cancel_button = true <->
   (SyncModal.cancelSync_begin st).2 = [SyncModal.cancel_sync]) /\
  (SyncEvents.clickable token st SyncEvents.cancel_button = false <->
   SyncModal.cancelSync_begin st = (st, [])) /\
  (SyncEvents.clickable token st SyncEvents.clear_button = true <->
   (SyncEvents.clearData_begin true st).2
     = [SyncEvents.invoke SyncModal.clear_local_data]) /\
  (SyncEvents.clickable token st SyncEvents.clear_button = false <->
   forall confirmed, SyncEvents.clearData_begin confirmed st = (st, [])).
Proof.
  destruct st as [p s syncing cancelling].
  unfold SyncEvents.clickable, SyncModal.startSync_begin, SyncModal.cancelSync_begin,
    SyncEvents.clearData_begin. simpl.
  destruct (Js.falsy token), syncing, cancelling; simpl;
    repeat split; try done; try (intros H; discriminate H);
    try (intros H; specialize (H true); discriminate H).
Qed.

Lemma buttons_match_guards_witness :
  (SyncModal.startSync_begin "token" SyncEvents.initial).2
    = [SyncModal.sync_all_memos "token"] /\
  SyncModal.cancelSync_begin SyncEvents.initial = (SyncEvents.initial, []).
Proof.
  split.
  - exact (proj1 (proj1 (buttons_match_guards "token" SyncEvents.initial)) eq_refl).
  - exact (proj1 (proj1 (proj2 (proj2 (proj2
             (buttons_match_guards "token" SyncEvents.initial))))) eq_refl).
Defined.


(** ** App: the infinite queries over any back end *)

(** X13: the search query loses and repeats nothing.  Over any back end
    whose search command serves the windows of one list of results, the
    query run from offset 0 comes to an end, after a number of fetches
    above a fiftieth of the number of results, and its pages, flattened by
    [getAllMemos], are exactly that list. *)
Theorem search_pagination_exhaustive (db : Commands) (token searchQuery : string)
    (ob : OrderBy) (od : OrderDir) (results : list Memo) :
  Js.falsy token = false ->
  (forall offset limit,
     search_memos_from_db db searchQuery ob od offset limit
       = take limit (drop offset results)) ->
  exists pages : list App.Page,
    (forall fuel, (length results / 50 < fuel)%nat ->
       App.fetchAllPages (App.search_queryFn db token true searchQuery ob od) fuel 0
         = Some pages) /\
    App.getAllMemos pages = results.
Proof.
  intros Htoken Hdb.
  destruct (fetchAllPages_list
              (App.search_queryFn db token true searchQuery ob od) results)
    with (fuel := S (length results / 50)) (off := 0%nat) as (pages & Hp & Hall).
  - intros off. unfold App.search_queryFn. rewrite Htoken. cbn [negb].
    by rewrite Hdb.
  - rewrite Nat.sub_0_r. lia.
  - exists pages. split; [|done].
    intros fuel Hfuel. eapply fetchAllPages_fuel_le; [|exact Hp]. lia.
Qed.

Lemma search_pagination_exhaustive_witness :
  exists pages : list App.Page,
    App.fetchAllPages
      (App.search_queryFn (Backend.commands Samples.store120) "token" true "NOTE"
         by_created_at desc) 3 0 = Some pages /\
    App.getAllMemos pages
      = List.filter (Backend.matches "NOTE")
          (Backend.ordered_rows by_created_at desc Samples.store120).
Proof.
  destruct (search_pagination_exhaustive (Backend.commands Samples.store120)
              "token" "NOTE" by_created_at desc
              (List.filter (Backend.matches "NOTE")
                 (Backend.ordered_rows by_created_at desc Samples.store120)))
    as (pages & Hfetch & Hall).
  - reflexivity.
  - intros offset limit. reflexivity.
  - exists pages. split; [|exact Hall].
    apply Hfetch. vm_compute. lia.
Defined.

Lemma fetchAllPages_nonempty (queryFn : nat -> App.QueryResult)
    (fuel pageParam : nat) (pages : list App.Page) :
  App.fetchAllPages queryFn fuel pageParam = Some pages -> (0 < length pages)%nat.
Proof.
  destruct fuel as [|fuel]; [done|]. cbn [App.fetchAllPages].
  destruct (queryFn pageParam) as [|page]; [done|].
  destruct (App.getNextPageParam page); [|intros [= <-]; simpl; lia].
  destruct (App.fetchAllPages queryFn fuel _); [|done].
  intros [= <-]. simpl. lia.
Qed.

(** The pages of a query function that cuts what it fetched with
    [toPage]: each one was asked for at the number of memos before it. *)
Lemma fetchAllPages_offsets (queryFn : nat -> App.QueryResult) :
  (forall off page, queryFn off = App.returned page ->
     exists fetched, (length fetched <= 51)%nat /\ page = App.toPage 50 fetched off) ->
  forall fuel off pages,
    App.fetchAllPages queryFn fuel off = Some pages ->
    forall i page, pages !! i = Some page ->
      App.offset page = Some (off + length (App.getAllMemos (take i pages)))%nat /\
      (App.has_more page = true <-> (S i < length pages)%nat).
Proof.
  intros Hq. induction fuel as [|fuel IH]; intros off pages Hrun i page Hi; [done|].
  cbn [App.fetchAllPages] in Hrun.
  destruct (queryFn off) as [|page0] eqn:Hq0; [done|].
  destruct (Hq off page0 Hq0) as (fetched & Hlen & ->).
  destruct (toPage_spec fetched off Hlen) as (Hm & Hh & Ho).
  remember (App.toPage 50 fetched off) as page0 eqn:Hpage0. clear Hpage0.
  unfold App.getNextPageParam in Hrun. rewrite Ho in Hrun.
  destruct (App.has_more page0) eqn:Hmore; cbn [negb] in Hrun.
  - destruct (App.fetchAllPages queryFn fuel (off + 50)) as [rest|] eqn:Hrest; [|done].
    injection Hrun as <-.
    pose proof (fetchAllPages_nonempty _ _ _ _ Hrest) as Hne.
    destruct i as [|j]; simpl in Hi.
    + injection Hi as <-. split.
      * rewrite Ho. f_equal. simpl. lia.
      * rewrite Hmore. simpl. split; [lia | done].
    + destruct (IH _ _ Hrest j page Hi) as [Hoff Hlast]. split.
      * rewrite Hoff. f_equal. unfold App.getAllMemos. cbn [take flat_map].
        rewrite length_app, Hm, length_take.
        pose proof (proj1 Hh eq_refl). lia.
      * rewrite Hlast. simpl. lia.
  - injection Hrun as <-. destruct i as [|j]; simpl in Hi; [|done].
    injection Hi as <-. split.
    + rewrite Ho. f_equal. simpl. lia.
    + rewrite Hmore. simpl. split; [done | lia].
Qed.

(** X14: no row is skipped between two pages.  With a back end that
    returns no more rows than it is asked for, each page of the memos query
    and of the search query was requested at the offset that equals the
    number of memos on the pages before it, and [has_more] is set on every
    page but the last one. *)
Theorem pages_continue (db : Commands) (token searchQuery : string)
    (ob : OrderBy) (od : OrderDir) (queryFn : nat -> App.QueryResult)
    (fuel : nat) (pages : list App.Page) :
  honours_limit db ->
  queryFn = App.memos_queryFn db token true ob od \/
  queryFn = App.search_queryFn db token true searchQuery ob od ->
  App.fetchAllPages queryFn fuel 0 = Some pages ->
  forall i page, pages !! i = Some page ->
    App.offset page = Some (length (App.getAllMemos (take i pages))) /\
    (App.has_more page = true <-> (S i < length pages)%nat).
Proof.
  intros Hdb Hq Hrun i page Hi.
  apply (fetchAllPages_offsets queryFn) with (fuel := fuel) (off := 0%nat); try done.
  intros off page0 Hpage0.
  destruct (Hdb ob od off 51%nat) as [Hget Hsearch].
  destruct Hq as [-> | ->].
  - unfold App.memos_queryFn in Hpage0.
    destruct (Js.falsy token); [done|]. cbn [negb] in Hpage0.
    injection Hpage0 as <-. eexists. split; [exact Hget | done].
  - unfold App.search_queryFn in Hpage0.
    destruct (Js.falsy token); [done|]. cbn [negb] in Hpage0.
    injection Hpage0 as <-. eexists. split; [exact (Hsearch searchQuery) | done].
Qed.

Lemma pages_continue_witness :
  exists pages : list App.Page,
    App.fetchAllPages
      (App.memos_queryFn (Backend.commands Samples.store120) "token" true
         by_updated_at asc) 3 0 = Some pages /\
    forall i page, pages !! i = Some page ->
      App.offset page = Some (length (App.getAllMemos (take i pages))) /\
      (App.has_more page = true <-> (S i < length pages)%nat).
Proof.
  destruct (App.fetchAllPages
              (App.memos_queryFn (Backend.commands Samples.store120) "token" true
                 by_updated_at asc) 3 0) as [pages|] eqn:Hrun.
  - exists pages. split; [reflexivity|].
    apply (pages_continue (Backend.commands Samples.store120) "token" ""
             by_updated_at asc _ 3 pages (commands_honour_limit _)
             (or_introl eq_refl) Hrun).
  - vm_compute in Hrun. discriminate Hrun.
Defined.


(** ** UpdateDialog *)

Lemma step_update_at_hand (ev : UpdateDialog.Event) (w w' : UpdateDialog.World) :
  UpdateDialog.step ev w = Some w' ->
  UpdateDialog.update_at_hand w -> UpdateDialog.update_at_hand w'.
Proof.
  destruct w as [[s p e u d t] c n]. unfold UpdateDialog.update_at_hand.
  destruct ev as [|result|a|chunk content|result]; simpl.
  - intros [= <-]. simpl. intros H [?|[?|[?|Hn]]]; try done. apply H. by do 3 right.
  - destruct c as [|c]; [done|]. intros [= <-].
    destruct result as [[found|]|err]; simpl; intros H [?|[?|[?|Hn]]]; try done;
      apply H; by do 3 right.
  - destruct (existsb (UpdateDialog.action_eqb a) _) eqn:Hshown; [|done]. simpl.
    destruct a; try (by intros [= <-]).
    unfold UpdateDialog.downloadAndInstall_begin. simpl.
    destruct u as [found|]; intros [= <-]; simpl; [done|].
    intros H. exact H.
  - destruct n as [|n]; [done|]. intros [= <-]. simpl. intros H _. apply H.
    do 3 right. lia.
  - destruct n as [|n]; [done|]. intros [= <-].
    destruct result as [[]|err]; simpl; intros H _; apply H; do 3 right; lia.
Qed.

Lemma steps_update_at_hand (evs : list UpdateDialog.Event) (w w' : UpdateDialog.World) :
  UpdateDialog.steps evs w = Some w' ->
  UpdateDialog.update_at_hand w -> UpdateDialog.update_at_hand w'.
Proof.
  revert w. induction evs as [|ev evs IH]; intros w; simpl.
  - by intros [= <-].
  - destruct (UpdateDialog.step ev w) as [w1|] eqn:Hstep; [|done].
    intros Hrest Hw. apply (IH w1 Hrest). by apply (step_update_at_hand ev w).
Qed.

(** X15: the button "Download Update" never does nothing.  After any
    sequence of openings, settled checks, clicks on offered buttons,
    download events and settled downloads, whenever the dialog offers
    "Download Update" there is an update to download, so a click starts the
    download: the status becomes ['downloading'], the error is cleared and
    one more download is under way. *)
Theorem download_button_starts_download
    (evs : list UpdateDialog.Event) (w : UpdateDialog.World) :
  UpdateDialog.steps evs UpdateDialog.mounted = Some w ->
  In UpdateDialog.download_update (UpdateDialog.renderActions (UpdateDialog.state w)) ->
  exists w',
    UpdateDialog.step (UpdateDialog.click UpdateDialog.download_update) w = Some w' /\
    UpdateDialog.status (UpdateDialog.state w') = UpdateDialog.downloading /\
    UpdateDialog.error (UpdateDialog.state w') = None /\
    UpdateDialog.update (UpdateDialog.state w') = UpdateDialog.update (UpdateDialog.state w) /\
    UpdateDialog.downloads w' = S (UpdateDialog.downloads w).
Proof.
  intros Hsteps Hshown.
  assert (UpdateDialog.update_at_hand w) as Hw.
  { apply (steps_update_at_hand evs _ _ Hsteps).
    unfold UpdateDialog.update_at_hand. simpl. intros [?|[?|[?|?]]]; try done. lia. }
  destruct w as [[s p e u d t] c n]. unfold UpdateDialog.update_at_hand in Hw.
  simpl in *. unfold UpdateDialog.renderActions in *. simpl in *.
  destruct s; simpl in Hshown; try (by intuition discriminate).
  destruct Hw as [found ->]; [by left|].
  simpl. unfold UpdateDialog.downloadAndInstall_begin. simpl.
  eexists. split; [done|]. by simpl.
Qed.

Lemma download_button_starts_download_witness :
  exists w',
    UpdateDialog.steps
      [UpdateDialog.opened;
       UpdateDialog.check_settled
         (inl (Some (UpdateDialog.mkUpdate "1.2.0" None)));
       UpdateDialog.click UpdateDialog.later;
       UpdateDialog.opened;
       UpdateDialog.check_settled
         (inl (Some (UpdateDialog.mkUpdate "1.2.0" None)));
       UpdateDialog.click UpdateDialog.download_update]
      UpdateDialog.mounted = Some w' /\
    UpdateDialog.status (UpdateDialog.state w') = UpdateDialog.downloading.
Proof.
  destruct (download_button_starts_download
              [UpdateDialog.opened;
               UpdateDialog.check_settled
                 (inl (Some (UpdateDialog.mkUpdate "1.2.0" None)));
               UpdateDialog.click UpdateDialog.later;
               UpdateDialog.opened;
               UpdateDialog.check_settled
                 (inl (Some (UpdateDialog.mkUpdate "1.2.0" None)))]
              _ eq_refl) as (w' & Hstep & Hstatus & _).
  - simpl. right. left. reflexivity.
  - exists w'. split; [|exact Hstatus].
    cbn -[UpdateDialog.step]. exact Hstep.
Defined.

Lemma or_zero_id (x : Z) : SyncModal.or_zero x = x.
Proof. unfold SyncModal.or_zero. by destruct (Z.eqb_spec x 0) as [->|]. Qed.

(** X16: the progress bar of a download.  For an event with
    [0 <= chunkLength <= contentLength < 2^53] and a positive
    [contentLength], the progress becomes an integer between 0 and 100, the
    exact rounded percentage when [contentLength <= 2^44] and no tie is
    involved.  It is the percentage of this one chunk: the event overwrites
    what any earlier event has left, nothing is added up. *)
Theorem download_progress (chunkLength contentLength : Z) (st : UpdateDialog.State) :
  0 <= chunkLength <= contentLength -> 0 < contentLength < 2 ^ 53 ->
  let st' := UpdateDialog.onDownloadEvent chunkLength contentLength st in
  (exists k,
     UpdateDialog.progress st' = Number.of_Z k /\ 0 <= k <= 100 /\
     (contentLength <= 2 ^ 44 -> exact_tie chunkLength contentLength = false ->
      k = exact_percentage chunkLength contentLength)) /\
  UpdateDialog.downloadedBytes st' = chunkLength /\
  UpdateDialog.totalBytes st' = contentLength /\
  forall c t,
    UpdateDialog.onDownloadEvent chunkLength contentLength
      (UpdateDialog.onDownloadEvent c t st) = st'.
Proof.
  intros Hc Ht st'. subst st'. unfold UpdateDialog.onDownloadEvent.
  cbn [UpdateDialog.progress UpdateDialog.downloadedBytes UpdateDialog.totalBytes
       UpdateDialog.status UpdateDialog.error UpdateDialog.update].
  rewrite !or_zero_id.
  destruct (Z.ltb_spec 0 contentLength) as [_|]; [|lia].
  split; [|done].
  destruct (percentage_of_progress chunkLength contentLength "" "" Hc Ht)
    as (k & Hk & Hrange & Hexact).
  exists k. split; [|split; [done|]].
  - unfold SyncModal.getProgressPercentage in Hk.
    cbn [SyncModal.total SyncModal.current] in Hk.
    destruct (of_Z_normal contentLength Ht) as (M & e & HofZ & _).
    assert (Number.is_zero (Number.of_Z contentLength) = false) as Hz
      by (by rewrite HofZ).
    rewrite Hz in Hk. exact Hk.
  - intros Hsmall Htie. specialize (Hexact Hsmall). by rewrite Htie in Hexact.
Qed.

Lemma download_progress_witness :
  exists k,
    UpdateDialog.progress
      (UpdateDialog.onDownloadEvent 4096 65536 UpdateDialog.initial) = Number.of_Z k /\
    0 <= k <= 100.
Proof.
  destruct (download_progress 4096 65536 UpdateDialog.initial)
    as ((k & Hk & Hrange & _) & _).
  - lia.
  - lia.
  - exists k. split; assumption.
Defined.


(** ** The update settings and the automatic check *)

(** X17: the automatic check runs at most once an hour.  After a run of
    [checkForUpdatesIfNeeded] at the time [now1] that called [check()], got
    an answer and could save, a later run at [now2] calls [check()] exactly
    when a full hour has passed; before that it changes nothing.  The time
    0 is excepted: a stored 0 counts as no check at all. *)
Theorem auto_check_at_most_hourly (now1 now2 : Z)
    (found : option UpdateDialog.Update)
    (update2 : Promise.Outcome (option UpdateDialog.Update))
    (d : Settings.Disk) (st1 st2 : useAutoUpdate.State) :
  let r1 := useAutoUpdate.checkForUpdatesIfNeeded now1 (Promise.fulfilled found) d st1 in
  useAutoUpdate.checked r1 = true -> Settings.saves d = true -> now1 <> 0 ->
  let r2 := useAutoUpdate.checkForUpdatesIfNeeded now2 update2 (useAutoUpdate.disk r1) st2 in
  (useAutoUpdate.checked r2 = true <->
   useAutoUpdate.UPDATE_CHECK_INTERVAL <= now2 - now1) /\
  (now2 - now1 < useAutoUpdate.UPDATE_CHECK_INTERVAL ->
   r2 = {| useAutoUpdate.state := st2; useAutoUpdate.disk := useAutoUpdate.disk r1;
           useAutoUpdate.checked := false |}).
Proof.
  intros r1 Hchecked Hsaves Hnow r2. subst r1 r2.
  destruct d as [[auto interval last] loads saves]. simpl in Hsaves. subst saves.
  revert Hchecked. unfold useAutoUpdate.checkForUpdatesIfNeeded.
  cbn [Settings.loads Settings.saves Settings.contents Settings.autoCheckUpdates
       Settings.lastUpdateCheck].
  destruct loads; cbn [negb]; [|done].
  destruct auto as [[|]|]; try done;
    (destruct (match last with
               | Some t => negb (t =? 0) && (now1 - t <? useAutoUpdate.UPDATE_CHECK_INTERVAL)
               | None => false
               end); [done|]; intros _;
     cbn [useAutoUpdate.disk Settings.write Settings.contents Settings.loads
          Settings.saves Settings.set_lastUpdateCheck Settings.autoCheckUpdates
          Settings.lastUpdateCheck negb];
     destruct (Z.eqb_spec now1 0) as [|_]; [done|]; cbn [negb andb];
     destruct (Z.ltb_spec (now2 - now1) useAutoUpdate.UPDATE_CHECK_INTERVAL) as [Hlt|Hge];
     [ split; [split; [done | lia] | done]
     | split; [|lia]; destruct update2; by split ]).
Qed.

Lemma auto_check_at_most_hourly_witness :
  useAutoUpdate.checked
    (useAutoUpdate.checkForUpdatesIfNeeded 1700003599999 (Promise.fulfilled None)
       (useAutoUpdate.disk
          (useAutoUpdate.checkForUpdatesIfNeeded 1700000000000 (Promise.fulfilled None)
             (Settings.mkDisk (Settings.mkStore None None None) true true)
             useAutoUpdate.initial))
       useAutoUpdate.initial) = false.
Proof.
  destruct (auto_check_at_most_hourly 1700000000000 1700003599999 None
              (Promise.fulfilled None)
              (Settings.mkDisk (Settings.mkStore None None None) true true)
              useAutoUpdate.initial useAutoUpdate.initial eq_refl eq_refl
              ltac:(discriminate)) as [_ H].
  rewrite H; [reflexivity|]. unfold useAutoUpdate.UPDATE_CHECK_INTERVAL. lia.
Defined.

(** X18: the frequency chosen in the settings never reaches the automatic
    check.  Whatever value is chosen, the handler of the select leaves the
    same store: [saveSettings] belongs to the render before the choice and
    saves that render's frequency and switch position.  The automatic check
    then behaves exactly as on the store in which only that switch position
    has been saved; the stored frequency is not read.  So the choice leaves
    the automatic check as it was when the store already holds the position
    of the switch, and it turns the automatic check on when the switch shows
    "on" while the store holds "off" (which two clicks on the switch bring
    about). *)
Theorem frequency_choice_is_not_read (value : string) (now : Z)
    (update : Promise.Outcome (option UpdateDialog.Update))
    (ui : UpdateSettings.State) (d : Settings.Disk) (st : useAutoUpdate.State) :
  let d' := (UpdateSettings.onValueChange value ui d).2 in
  let d0 :=
    if Settings.loads d && Settings.saves d
    then Settings.write (Settings.set_autoCheckUpdates (UpdateSettings.autoCheck ui)) d
    else d in
  let r := useAutoUpdate.checkForUpdatesIfNeeded now update d st in
  let r0 := useAutoUpdate.checkForUpdatesIfNeeded now update d0 st in
  let r' := useAutoUpdate.checkForUpdatesIfNeeded now update d' st in
  (forall value', (UpdateSettings.onValueChange value' ui d).2 = d') /\
  (useAutoUpdate.checked r' = useAutoUpdate.checked r0 /\
   useAutoUpdate.state r' = useAutoUpdate.state r0 /\
   Settings.lastUpdateCheck (Settings.contents (useAutoUpdate.disk r'))
     = Settings.lastUpdateCheck (Settings.contents (useAutoUpdate.disk r0))) /\
  (Settings.autoCheckUpdates (Settings.contents d) = Some (UpdateSettings.autoCheck ui) ->
   useAutoUpdate.checked r' = useAutoUpdate.checked r /\
   useAutoUpdate.state r' = useAutoUpdate.state r) /\
  (Settings.loads d = true -> Settings.saves d = true ->
   UpdateSettings.autoCheck ui = true ->
   Settings.autoCheckUpdates (Settings.contents d) = Some false ->
   (forall t, Settings.lastUpdateCheck (Settings.contents d) = Some t ->
              t = 0 \/ useAutoUpdate.UPDATE_CHECK_INTERVAL <= now - t) ->
   useAutoUpdate.checked r = false /\ useAutoUpdate.checked r' = true).
Proof.
  intros d' d0 r r0 r'. subst d' d0 r r0 r'.
  destruct ui as [uiauto interval lastc checking].
  destruct d as [[auto ival last] loads saves].
  unfold UpdateSettings.onValueChange, UpdateSettings.saveSettings,
    useAutoUpdate.checkForUpdatesIfNeeded. simpl.
  split; [done|]. split; [|split].
  - destruct loads, saves; simpl; try done;
      destruct uiauto; try done;
      destruct (match last with
                | Some t => negb (t =? 0) && (now - t <? useAutoUpdate.UPDATE_CHECK_INTERVAL)
                | None => false
                end); try done; by destruct update.
  - intros ->.
    destruct loads, saves; simpl; try done;
      destruct uiauto; try done;
      destruct (match last with
                | Some t => negb (t =? 0) && (now - t <? useAutoUpdate.UPDATE_CHECK_INTERVAL)
                | None => false
                end); try done; by destruct update.
  - intros -> -> -> -> Hlast. simpl. split; [done|].
    destruct last as [t|]; [|by destruct update].
    destruct (Hlast t eq_refl) as [->|Hge]; [by destruct update|].
    destruct (Z.ltb_spec (now - t) useAutoUpdate.UPDATE_CHECK_INTERVAL) as [Hlt|_]; [lia|].
    rewrite andb_false_r. by destruct update.
Qed.

Lemma frequency_choice_is_not_read_witness :
  let d0 := Settings.mkDisk (Settings.mkStore None None None) true true in
  let click1 := UpdateSettings.onCheckedChange false UpdateSettings.initial d0 in
  let click2 := UpdateSettings.onCheckedChange true click1.1 click1.2 in
  UpdateSettings.autoCheck click2.1 = true /\
  useAutoUpdate.checked
    (useAutoUpdate.checkForUpdatesIfNeeded 1700000000000 (Promise.fulfilled None)
       click2.2 useAutoUpdate.initial) = false /\
  useAutoUpdate.checked
    (useAutoUpdate.checkForUpdatesIfNeeded 1700000000000 (Promise.fulfilled None)
       (UpdateSettings.onValueChange "weekly" click2.1 click2.2).2
       useAutoUpdate.initial) = true.
Proof.
  intros d0 click1 click2. split; [reflexivity|].
  apply (proj2 (proj2 (proj2 (frequency_choice_is_not_read "weekly" 1700000000000
                                (Promise.fulfilled None) click2.1 click2.2
                                useAutoUpdate.initial)))
           eq_refl eq_refl eq_refl eq_refl).
  intros t Ht. discriminate Ht.
Defined.

(** X19: the switch saves the value it had before the click.  The handler
    shows the new value, but [saveSettings] still belongs to the render
    with the old one: the store receives the old value, and loading the
    settings again brings the old value back. *)
Theorem switch_saves_previous_value (checked : bool)
    (ui : UpdateSettings.State) (d : Settings.Disk) :
  Settings.loads d = true -> Settings.saves d = true ->
  let ui' := (UpdateSettings.onCheckedChange checked ui d).1 in
  let d' := (UpdateSettings.onCheckedChange checked ui d).2 in
  UpdateSettings.autoCheck ui' = checked /\
  Settings.autoCheckUpdates (Settings.contents d') = Some (UpdateSettings.autoCheck ui) /\
  forall ui0, UpdateSettings.autoCheck (UpdateSettings.loadSettings d' ui0)
              = UpdateSettings.autoCheck ui.
Proof.
  destruct d as [s loads saves]. simpl. intros -> ->.
  unfold UpdateSettings.onCheckedChange, UpdateSettings.saveSettings,
    UpdateSettings.loadSettings. simpl. done.
Qed.

Lemma switch_saves_previous_value_witness :
  UpdateSettings.autoCheck
    (UpdateSettings.loadSettings
       (UpdateSettings.onCheckedChange false UpdateSettings.initial
          (Settings.mkDisk (Settings.mkStore None None None) true true)).2
       UpdateSettings.initial) = true.
Proof.
  exact (proj2 (proj2 (switch_saves_previous_value false UpdateSettings.initial
                         (Settings.mkDisk (Settings.mkStore None None None) true true)
                         eq_refl eq_refl)) UpdateSettings.initial).
Defined.

(** X20: whether the automatic check runs after the switch was clicked is
    decided by the position the switch had before the click.  With a store
    that loads and saves and no check within the last hour, the automatic
    check after a click runs exactly when the switch was on before it: one
    click on "off" does not stop the checks. *)
Theorem auto_check_follows_previous_switch (checked : bool) (now : Z)
    (update : Promise.Outcome (option UpdateDialog.Update))
    (ui : UpdateSettings.State) (d : Settings.Disk) (st : useAutoUpdate.State) :
  Settings.loads d = true -> Settings.saves d = true ->
  (forall t, Settings.lastUpdateCheck (Settings.contents d) = Some t ->
             t = 0 \/ useAutoUpdate.UPDATE_CHECK_INTERVAL <= now - t) ->
  let d' := (UpdateSettings.onCheckedChange checked ui d).2 in
  useAutoUpdate.checked (useAutoUpdate.checkForUpdatesIfNeeded now update d' st)
    = UpdateSettings.autoCheck ui.
Proof.
  destruct d as [[auto ival last] loads saves]. simpl. intros -> -> Hlast.
  destruct ui as [uiauto interval lastc checking].
  unfold UpdateSettings.onCheckedChange, UpdateSettings.saveSettings,
    useAutoUpdate.checkForUpdatesIfNeeded. simpl.
  destruct uiauto; [|done].
  destruct last as [t|]; [|by destruct update].
  destruct (Hlast t eq_refl) as [->|Hge]; [by destruct update|].
  destruct (Z.ltb_spec (now - t) useAutoUpdate.UPDATE_CHECK_INTERVAL) as [Hlt|_]; [lia|].
  rewrite andb_false_r. by destruct update.
Qed.

Lemma auto_check_follows_previous_switch_witness :
  useAutoUpdate.checked
    (useAutoUpdate.checkForUpdatesIfNeeded 1700000000000 (Promise.fulfilled None)
       (UpdateSettings.onCheckedChange false UpdateSettings.initial
          (Settings.mkDisk (Settings.mkStore None None None) true true)).2
       useAutoUpdate.initial) = true.
Proof.
  apply (auto_check_follows_previous_switch false 1700000000000 (Promise.fulfilled None)
           UpdateSettings.initial
           (Settings.mkDisk (Settings.mkStore None None None) true true)
           useAutoUpdate.initial eq_refl eq_refl).
  intros t Ht. discriminate Ht.
Defined.

(** X21: a manual check counts for the automatic one.  When "Check Now"
    gets an answer at the time [now1] and the store loads and saves, the
    button is released, the time is shown and stored, the dialog is
    signalled exactly when an update was found, and an automatic check
    within the next hour is skipped. *)
Theorem manual_check_defers_auto_check (now1 now2 : Z)
    (found : option UpdateDialog.Update)
    (update2 : Promise.Outcome (option UpdateDialog.Update))
    (ui : UpdateSettings.State) (d : Settings.Disk) (st : useAutoUpdate.State) :
  Settings.loads d = true -> Settings.saves d = true ->
  now1 <> 0 -> now2 - now1 < useAutoUpdate.UPDATE_CHECK_INTERVAL ->
  let '(ui', d', notice) := UpdateSettings.checkNow now1 (Promise.fulfilled found) ui d in
  UpdateSettings.checking ui' = false /\
  UpdateSettings.lastCheck ui' = Some now1 /\
  Settings.lastUpdateCheck (Settings.contents d') = Some now1 /\
  (notice = UpdateSettings.update_available_event <-> is_Some found) /\
  useAutoUpdate.checkForUpdatesIfNeeded now2 update2 d' st
    = {| useAutoUpdate.state := st; useAutoUpdate.disk := d';
         useAutoUpdate.checked := false |}.
Proof.
  destruct d as [[auto ival last] loads saves]. simpl. intros -> -> Hnow Hlt.
  unfold UpdateSettings.checkNow. simpl.
  split; [done|]. split; [done|]. split; [done|]. split.
  - destruct found as [u|]; simpl; split; intros H; try done; try (by eexists);
      try (by destruct H).
  - unfold useAutoUpdate.checkForUpdatesIfNeeded. simpl.
    destruct (Z.eqb_spec now1 0) as [|_]; [done|].
    destruct (Z.ltb_spec (now2 - now1) useAutoUpdate.UPDATE_CHECK_INTERVAL) as [_|]; [|lia].
    simpl. by destruct auto as [[|]|].
Qed.

Lemma manual_check_defers_auto_check_witness :
  useAutoUpdate.checked
    (useAutoUpdate.checkForUpdatesIfNeeded 1700000060000 (Promise.fulfilled None)
       (UpdateSettings.checkNow 1700000000000 (Promise.fulfilled None)
          UpdateSettings.initial
          (Settings.mkDisk (Settings.mkStore None None None) true true)).1.2
       useAutoUpdate.initial) = false.
Proof.
  pose proof (manual_check_defers_auto_check 1700000000000 1700000060000 None
                (Promise.fulfilled None) UpdateSettings.initial
                (Settings.mkDisk (Settings.mkStore None None None) true true)
                useAutoUpdate.initial eq_refl eq_refl ltac:(discriminate)
                ltac:(unfold useAutoUpdate.UPDATE_CHECK_INTERVAL; lia)) as H.
  cbv beta iota zeta delta [UpdateSettings.checkNow] in H.
  destruct H as (_ & _ & _ & _ & H).
  exact (f_equal useAutoUpdate.checked H).
Defined.

(** X22: what [saveSettings] stores, [loadSettings] brings back: the
    position of the switch always, and the frequency when it is not the
    empty string, which [loadSettings] takes for a missing value. *)
Theorem settings_round_trip (ui ui0 : UpdateSettings.State) (d : Settings.Disk) :
  Settings.loads d = true -> Settings.saves d = true ->
  let ui' := UpdateSettings.loadSettings (UpdateSettings.saveSettings ui d) ui0 in
  UpdateSettings.autoCheck ui' = UpdateSettings.autoCheck ui /\
  UpdateSettings.checkInterval ui'
    = (if Js.falsy (UpdateSettings.checkInterval ui)
       then UpdateSettings.checkInterval ui0 else UpdateSettings.checkInterval ui) /\
  UpdateSettings.checking ui' = UpdateSettings.checking ui0.
Proof.
  destruct d as [s loads saves]. simpl. intros -> ->.
  unfold UpdateSettings.loadSettings, UpdateSettings.saveSettings. simpl. done.
Qed.

Lemma settings_round_trip_witness :
  UpdateSettings.checkInterval
    (UpdateSettings.loadSettings
       (UpdateSettings.saveSettings
          (UpdateSettings.mkState false "weekly" None false)
          (Settings.mkDisk (Settings.mkStore None None None) true true))
       UpdateSettings.initial) = "weekly".
Proof.
  exact (proj1 (proj2 (settings_round_trip
                         (UpdateSettings.mkState false "weekly" None false)
                         UpdateSettings.initial
                         (Settings.mkDisk (Settings.mkStore None None None) true true)
                         eq_refl eq_refl))).
Defined.


(** ** MemoContent: the language badge *)

Lemma strip_prefix_spec (p s rest : string) :
  MemoContent.strip_prefix p s = Some rest -> s = (p ++ rest)%string.
Proof.
  revert s. induction p as [|a p IH]; intros s; simpl.
  - by intros [= ->].
  - destruct s as [|b s]; [done|].
    destruct (Ascii.eqb_spec a b) as [->|]; [|done].
    intros H. by rewrite (IH s H).
Qed.

Lemma word_prefix_spec (s : string) :
  exists post,
    s = (MemoContent.word_prefix s ++ post)%string /\
    MemoContent.all_word (MemoContent.word_prefix s) = true /\
    MemoContent.word_prefix post = EmptyString.
Proof.
  induction s as [|c s (post & Hs & Hall & Hpost)]; simpl.
  - by exists EmptyString.
  - destruct (MemoContent.is_word c) eqn:Hc.
    + exists post. cbn [MemoContent.all_word]. rewrite Hc, Hall.
      split; [|done]. change (String c s = String c (MemoContent.word_prefix s ++ post)).
      by f_equal.
    + exists (String c s). cbn [MemoContent.word_prefix]. by rewrite Hc.
Qed.

Lemma word_prefix_app (w post : string) :
  MemoContent.all_word w = true -> MemoContent.word_prefix post = EmptyString ->
  MemoContent.word_prefix (w ++ post) = w.
Proof.
  intros Hw Hpost. induction w as [|c w IH]; simpl in *; [done|].
  apply andb_true_iff in Hw as [-> Hw]. by rewrite IH.
Qed.

Lemma match_here_sound (s lang : string) :
  MemoContent.match_here s = Some lang ->
  exists post,
    s = ("language-" ++ lang ++ post)%string /\
    lang <> EmptyString /\ MemoContent.all_word lang = true /\
    MemoContent.word_prefix post = EmptyString.
Proof.
  unfold MemoContent.match_here.
  destruct (MemoContent.strip_prefix "language-" s) as [rest|] eqn:Hs; [|done].
  apply strip_prefix_spec in Hs. subst s.
  destruct (word_prefix_spec rest) as (post & Hrest & Hall & Hpost).
  destruct (MemoContent.word_prefix rest) as [|c w] eqn:Hw; [done|].
  intros [= <-]. exists post. by rewrite <- Hrest.
Qed.

Lemma match_here_exec (s lang : string) :
  MemoContent.match_here s = Some lang -> MemoContent.exec_language s = Some lang.
Proof. intros H. destruct s; cbn [MemoContent.exec_language]; by rewrite H. Qed.

Lemma match_here_language (w post : string) :
  w <> EmptyString -> MemoContent.all_word w = true ->
  MemoContent.word_prefix post = EmptyString ->
  MemoContent.match_here ("language-" ++ w ++ post)%string = Some w.
Proof.
  intros Hne Hw Hpost. unfold MemoContent.match_here.
  change (MemoContent.strip_prefix "language-" ("language-" ++ w ++ post))
    with (Some (w ++ post)%string).
  cbv beta iota. rewrite word_prefix_app by done. by destruct w.
Qed.

(** What [exec] returns occurs in the string, after ["language-"]. *)
Lemma exec_language_sound (s lang : string) :
  MemoContent.exec_language s = Some lang ->
  exists pre post,
    s = (pre ++ "language-" ++ lang ++ post)%string /\
    lang <> EmptyString /\ MemoContent.all_word lang = true /\
    MemoContent.word_prefix post = EmptyString.
Proof.
  induction s as [|c s IH].
  - simpl. done.
  - cbn [MemoContent.exec_language].
    destruct (MemoContent.match_here (String c s)) as [l|] eqn:Hm.
    + intros [= ->]. destruct (match_here_sound _ _ Hm) as (post & Hs & Hrest).
      exists EmptyString, post. by split.
    + intros Hs. destruct (IH Hs) as (pre & post & -> & Hrest).
      exists (String c pre), post. by split.
Qed.

(** X23: the label of the badge is read off the class.  When the [code]
    renderer puts a badge on a block, the label is a non-empty run of
    letters, digits and underscores that follows ["language-"] in the class
    name and is not continued by a further such character; inline code
    never gets a badge. *)
Theorem code_badge_sound (inline : bool) (className : option string) (lang : string) :
  MemoContent.code_badge inline className = Some lang ->
  inline = false /\
  exists pre post,
    className = Some (pre ++ "language-" ++ lang ++ post)%string /\
    lang <> EmptyString /\ MemoContent.all_word lang = true /\
    MemoContent.word_prefix post = EmptyString.
Proof.
  unfold MemoContent.code_badge. destruct inline; [done|]. intros H. split; [done|].
  destruct className as [s|]; simpl in H.
  - destruct (exec_language_sound s lang H) as (pre & post & -> & Hrest).
    by exists pre, post.
  - done.
Qed.

Lemma code_badge_sound_witness :
  exists pre post,
    Some "hljs language-ts"%string = Some (pre ++ "language-" ++ "ts" ++ post)%string /\
    MemoContent.word_prefix post = EmptyString.
Proof.
  destruct (code_badge_sound false (Some "hljs language-ts"%string) "ts" eq_refl)
    as (_ & pre & post & Hs & _ & _ & Hpost).
  by exists pre, post.
Defined.

(** X24: when a block gets a badge.  The renderer puts a badge exactly on
    the code that is not inline and whose class name contains
    ["language-"] followed by a letter, a digit or an underscore. *)
Theorem code_badge_shown_iff (inline : bool) (className : option string) :
  is_Some (MemoContent.code_badge inline className) <->
  inline = false /\
  exists pre c post,
    MemoContent.is_word c = true /\
    className = Some (pre ++ "language-" ++ String c post)%string.
Proof.
  split.
  - intros [lang Hlang]. unfold MemoContent.code_badge in Hlang.
    destruct inline; [done|]. split; [done|].
    destruct className as [s|]; simpl in Hlang; [|done].
    apply exec_language_sound in Hlang as (pre & post & -> & Hne & Hall & _).
    destruct lang as [|c w]; [done|].
    simpl in Hall. apply andb_true_iff in Hall as [Hc _].
    exists pre, c, (w ++ post)%string. by split.
  - intros (-> & pre & c & post & Hc & ->). unfold MemoContent.code_badge. simpl.
    induction pre as [|a pre IH].
    + eexists. apply match_here_exec. unfold MemoContent.match_here.
      change (MemoContent.strip_prefix "language-" ("" ++ "language-" ++ String c post))
        with (Some (String c post)).
      simpl. by rewrite Hc.
    + change (String a pre ++ "language-" ++ String c post)%string
        with (String a (pre ++ "language-" ++ String c post)).
      cbn [MemoContent.exec_language].
      destruct (MemoContent.match_here _); [by eexists | exact IH].
Qed.

Lemma code_badge_shown_iff_witness :
  is_Some (MemoContent.code_badge false (Some "hljs language-js"%string)).
Proof.
  apply (proj2 (code_badge_shown_iff false (Some "hljs language-js"%string))).
  split; [reflexivity|].
  exists "hljs "%string, "j"%char, "s"%string. split; reflexivity.
Defined.

(** X25: the class names that the highlighter produces give the language
    back.  For a language name [w] of letters, digits and underscores, the
    classes ["language-w"] and ["hljs language-w"], whatever follows that
    does not continue the name, get the badge [w]. *)
Theorem code_badge_language (w post : string) :
  w <> EmptyString -> MemoContent.all_word w = true ->
  MemoContent.word_prefix post = EmptyString ->
  MemoContent.code_badge false (Some ("language-" ++ w ++ post)%string) = Some w /\
  MemoContent.code_badge false (Some ("hljs language-" ++ w ++ post)%string) = Some w.
Proof.
  intros Hne Hw Hpost.
  pose proof (match_here_exec _ _ (match_here_language w post Hne Hw Hpost)) as H.
  unfold MemoContent.code_badge. simpl from_option. split; [exact H|].
  exact H.
Qed.

Lemma code_badge_language_witness :
  MemoContent.code_badge false (Some "hljs language-rust code"%string) = Some "rust"%string.
Proof.
  exact (proj2 (code_badge_language "rust" " code" ltac:(discriminate) eq_refl eq_refl)).
Defined.
